(** * TinyExpr: a shallow embedding of tinyexpr.c and its specification

    The development follows the C source function by function: the
    combinatoric built-ins, the built-in table and the two name lookups,
    the tokenizer [next_token], the recursive-descent parser
    ([base], [power], [factor], [term], [expr], [list_]), the evaluator
    [te_eval], the constant folder [optimize] and the entry points
    [te_compile] and [te_interp].

    Doubles are Rocq's primitive binary64 floats.  Everything the C file
    takes from outside (the C library and the calling program) is the
    interface [Host]. *)

From Stdlib Require Import ZArith List String Ascii Bool Lia Floats.
From Stdlib Require Import FunctionalExtensionality.
Import ListNotations.

Open Scope Z_scope.

(* ================================================================== *)
(** * Declarations of tinyexpr.h *)

(** Modelled from the spec: the header tinyexpr.h (the enumeration of node
    kinds and the flag for pure functions) is not among the sources.  The
    spec fixes the kinds (variable, function-N and closure-N for N in 0..7,
    a pure flag); the numbers are the ones the masks of tinyexpr.c force:
    [TYPE_MASK] keeps five bits, [ARITY] reads the low three bits of a type
    that has the function or the closure bit, and the token kinds start at
    [TE_CLOSURE7 + 1] and must stay below 32. *)
Definition TE_VARIABLE : Z := 0.
Definition TE_FUNCTION0 : Z := 8.
Definition TE_FUNCTION1 : Z := 9.
Definition TE_FUNCTION2 : Z := 10.
Definition TE_FUNCTION7 : Z := 15.
Definition TE_CLOSURE0 : Z := 16.
Definition TE_CLOSURE1 : Z := 17.
Definition TE_CLOSURE2 : Z := 18.
Definition TE_CLOSURE7 : Z := 23.
Definition TE_FLAG_PURE : Z := 32.

(** [enum {TE_CONSTANT = 1}] and the token kinds of tinyexpr.c. *)
Definition TE_CONSTANT : Z := 1.
Definition TOK_NULL : Z := TE_CLOSURE7 + 1.
Definition TOK_ERROR : Z := TE_CLOSURE7 + 2.
Definition TOK_END : Z := TE_CLOSURE7 + 3.
Definition TOK_SEP : Z := TE_CLOSURE7 + 4.
Definition TOK_OPEN : Z := TE_CLOSURE7 + 5.
Definition TOK_CLOSE : Z := TE_CLOSURE7 + 6.
Definition TOK_NUMBER : Z := TE_CLOSURE7 + 7.
Definition TOK_VARIABLE : Z := TE_CLOSURE7 + 8.
Definition TOK_INFIX : Z := TE_CLOSURE7 + 9.

Definition TYPE_MASK (type : Z) : Z := Z.land type 31.
Definition IS_PURE (type : Z) : bool := negb (Z.land type TE_FLAG_PURE =? 0).
Definition IS_FUNCTION (type : Z) : bool := negb (Z.land type TE_FUNCTION0 =? 0).
Definition IS_CLOSURE (type : Z) : bool := negb (Z.land type TE_CLOSURE0 =? 0).
Definition ARITY (type : Z) : Z :=
  if Z.land type (Z.lor TE_FUNCTION0 TE_CLOSURE0) =? 0 then 0 else Z.land type 7.

(* ================================================================== *)
(** * Pointers, bindings and expression nodes *)

(** The functions whose addresses the program stores and compares: the
    static functions of tinyexpr.c, the functions of math.h it puts in its
    table or binds to an operator, and the functions of the calling
    program (numbered). *)
Inductive fn : Type :=
| fn_pi | fn_e | fn_fac | fn_ncr | fn_npr
| fn_add | fn_sub | fn_mul | fn_divide | fn_negate | fn_comma
| fn_fabs | fn_acos | fn_asin | fn_atan | fn_atan2 | fn_ceil | fn_cos
| fn_cosh | fn_exp | fn_floor | fn_log | fn_log10 | fn_pow | fn_sin
| fn_sinh | fn_sqrt | fn_tan | fn_tanh | fn_fmod
| fn_extern (id : N).

Definition fn_eq_dec (f g : fn) : {f = g} + {f <> g}.
Proof. decide equality. apply N.eq_dec. Defined.

Definition fn_eqb (f g : fn) : bool := if fn_eq_dec f g then true else false.

(** A [void *]: null, the address of a double of the calling program, the
    address of a function, or the address of some other object of the
    calling program (a closure context). *)
Inductive pointer : Type :=
| null
| ptr_double (l : N)
| ptr_fun (f : fn)
| ptr_obj (o : N).

(** [te_variable]: { name, address, type, context }. *)
Record te_variable : Type := {
  v_name : string;
  v_address : pointer;
  v_type : Z;
  v_context : pointer
}.

(** The anonymous union { double value; const double *bound; const void
    *function; } of [te_expr] and of [state]: the member last written. *)
Inductive te_union : Type :=
| Value (v : float)
| Ptr (p : pointer).

(** What a [parameters[i]] slot holds: a child the node owns, any other
    pointer (null after [memset], the context of a closure), or the
    address of a child that [te_free_parameters] has released. *)
Inductive slot (E : Type) : Type :=
| child (e : E)
| raw (p : pointer)
| freed.
Arguments child {E} e.
Arguments raw {E} p.
Arguments freed {E}.

Scheme All for slot.
Scheme All for list.

(** [te_expr]: { type; union; parameters[] }. *)
Inductive te_expr : Type :=
| Node (type : Z) (u : te_union) (parameters : list (slot te_expr)).

Definition e_type (n : te_expr) : Z := let 'Node t _ _ := n in t.
Definition e_u (n : te_expr) : te_union := let 'Node _ u _ := n in u.
Definition e_parameters (n : te_expr) : list (slot te_expr) :=
  let 'Node _ _ ps := n in ps.

Definition set_type (n : te_expr) (t : Z) : te_expr :=
  let 'Node _ u ps := n in Node t u ps.
Definition set_u (n : te_expr) (u : te_union) : te_expr :=
  let 'Node t _ ps := n in Node t u ps.

(** [l[i] = x] inside the allocated block; the program never writes
    outside it. *)
Fixpoint store {A : Type} (l : list A) (i : nat) (x : A) : list A :=
  match l, i with
  | [], _ => []
  | _ :: l', O => x :: l'
  | y :: l', S i' => y :: store l' i' x
  end.

Definition set_param (n : te_expr) (i : Z) (x : slot te_expr) : te_expr :=
  let 'Node t u ps := n in Node t u (store ps (Z.to_nat i) x).

(** Reading a member of the union.  Reading the member that was not the
    last one written is not defined in C; the model gives NaN or null. *)
Definition value_of (u : te_union) : float :=
  match u with Value v => v | Ptr _ => nan end.
Definition ptr_of (u : te_union) : pointer :=
  match u with Ptr p => p | Value _ => null end.

(* ================================================================== *)
(** * The C library and the calling program *)

(** An argument of a call through a function pointer. *)
Inductive carg : Type :=
| arg_ptr (p : pointer)
| arg_double (d : float).

(** What tinyexpr.c takes from outside: [strtod] (the value and the number
    of characters it consumed), the functions of math.h, and from the
    calling program the doubles its bindings point to and the functions it
    registered. *)
Class Host : Type := {
  strtod : string -> float * nat;
  strtod_end : forall s, (snd (strtod s) <= String.length s)%nat;
  fabs : float -> float;
  acos : float -> float;
  asin : float -> float;
  atan : float -> float;
  atan2 : float -> float -> float;
  ceil : float -> float;
  cos : float -> float;
  cosh : float -> float;
  exp : float -> float;
  floor : float -> float;
  log : float -> float;
  log10 : float -> float;
  pow : float -> float -> float;
  sin : float -> float;
  sinh : float -> float;
  sqrt : float -> float;
  tan : float -> float;
  tanh : float -> float;
  fmod : float -> float -> float;
  deref : N -> float;
  extern : N -> list carg -> float
}.

(** The characters tests of next_token, in the C locale. *)
Definition is_digit (c : ascii) : bool := (("0" <=? c) && (c <=? "9"))%char.
Definition isalpha (c : ascii) : bool :=
  ((("a" <=? c) && (c <=? "z")) || (("A" <=? c) && (c <=? "Z")))%char.
Definition isdigit (c : ascii) : bool := is_digit c.

(** [p + n] on a C string. *)
Fixpoint drop (n : nat) (s : string) : string :=
  match n, s with
  | O, _ => s
  | S n', String _ s' => drop n' s'
  | S _, EmptyString => EmptyString
  end.

(** [s[i]]: the terminating NUL is read at the end of the string. *)
Fixpoint char_at (s : string) (i : nat) : ascii :=
  match s, i with
  | EmptyString, _ => Ascii.zero
  | String c _, O => c
  | String _ s', S i' => char_at s' i'
  end.

Definition code (c : ascii) : Z := Z.of_N (N_of_ascii c).

(** [strncmp]: the difference of the first two characters that differ among
    the first [n], as unsigned chars; 0 when there is none or when both
    strings end before. *)
Fixpoint strncmp (a b : string) (n : nat) : Z :=
  match n with
  | O => 0
  | S n' =>
      match a, b with
      | EmptyString, EmptyString => 0
      | EmptyString, String d _ => 0 - code d
      | String c _, EmptyString => code c
      | String c a', String d b' =>
          if (c =? d)%char then strncmp a' b' n' else code c - code d
      end
  end.

(** The first [n] characters of a string: the identifier that [name] and
    [len] stand for in the two lookups. *)
Fixpoint take (n : nat) (s : string) : string :=
  match n, s with
  | S n', String c s' => String c (take n' s')
  | _, _ => EmptyString
  end.

(** A C string holds no NUL before its end. *)
Fixpoint nul_free (s : string) : bool :=
  match s with
  | EmptyString => true
  | String c s' => negb (c =? Ascii.zero)%char && nul_free s'
  end.

(* ================================================================== *)
(** * The combinatoric built-ins *)

(** [unsigned int] has 32 bits and [unsigned long int] 64 (LP64). *)
Definition UINT_MAX : Z := 4294967295.
Definition ULONG_MAX : Z := 18446744073709551615.

(** Arithmetic on [unsigned long int] wraps around. *)
Definition ulong (z : Z) : Z := z mod (ULONG_MAX + 1).

(** [(double) z] for an unsigned integer: the nearest double, ties to
    even. *)
Definition double_of_ulong (z : Z) : float :=
  SF2Prim (binary_normalize prec emax z 0 false).

(** [(unsigned int) a] for a double that is not negative and not above
    [UINT_MAX]: the fraction is discarded.  For other doubles (NaN among
    them) C leaves the conversion undefined; the model gives what the
    formula gives. *)
Definition uint_of_double (a : float) : Z :=
  match Prim2SF a with
  | S754_finite false m e => Z.shiftl (Zpos m) e
  | _ => 0
  end.

(** The loop of [fac], from [i] on, [iters] iterations left; [None] is the
    early [return INFINITY]. *)
Fixpoint fac_loop (iters : nat) (i result : Z) : option Z :=
  match iters with
  | O => Some result
  | S k =>
      if i >? ULONG_MAX / result then None
      else fac_loop k (i + 1) (ulong (result * i))
  end.

Definition fac (a : float) : float :=
  if (a <? 0)%float then nan
  else if (double_of_ulong UINT_MAX <? a)%float then infinity
  else
    let ua := uint_of_double a in
    match fac_loop (Z.to_nat ua) 1 1 with
    | None => infinity
    | Some result => double_of_ulong result
    end.

(** The loop of [ncr]. *)
Fixpoint ncr_loop (iters : nat) (un ur i result : Z) : option Z :=
  match iters with
  | O => Some result
  | S k =>
      if result >? ULONG_MAX / ulong (ulong (un - ur) + i) then None
      else
        let result := ulong (result * ulong (ulong (un - ur) + i)) in
        let result := result / i in
        ncr_loop k un ur (i + 1) result
  end.

Definition ncr (n r : float) : float :=
  if ((n <? 0) || (r <? 0) || (n <? r))%float then nan
  else if ((double_of_ulong UINT_MAX <? n) || (double_of_ulong UINT_MAX <? r))%float
  then infinity
  else
    let un := uint_of_double n in
    let ur := uint_of_double r in
    let ur := if ur >? un / 2 then ulong (un - ur) else ur in
    match ncr_loop (Z.to_nat ur) un ur 1 1 with
    | None => infinity
    | Some result => double_of_ulong result
    end.

Definition npr (n r : float) : float := (ncr n r * fac r)%float.

(** [pi], [e] and the operators. *)
Definition pi : float := 0x1.921fb54442d18p+1%float.  (* 3.14159265358979323846 *)
Definition e : float := 0x1.5bf0a8b145769p+1%float.   (* 2.71828182845904523536 *)
Definition add (a b : float) : float := (a + b)%float.
Definition sub (a b : float) : float := (a - b)%float.
Definition mul (a b : float) : float := (a * b)%float.
Definition divide (a b : float) : float := (a / b)%float.
Definition negate (a : float) : float := (- a)%float.
Definition comma (a b : float) : float := b.

(* ================================================================== *)
(** * Calls through a function pointer *)

Definition call0 (f : float) (args : list carg) : float :=
  match args with
  | [] => f
  | _ => nan
  end.

Definition call1 (f : float -> float) (args : list carg) : float :=
  match args with
  | [arg_double a] => f a
  | _ => nan
  end.

Definition call2 (f : float -> float -> float) (args : list carg) : float :=
  match args with
  | [arg_double a; arg_double b] => f a b
  | _ => nan
  end.

(** The call [TE_FUN(...)(args)] through the pointer [p].  A call with arguments the function was
    not written for, or through a pointer that is not a function, is not
    defined in C; the model gives NaN. *)
Definition call {H : Host} (p : pointer) (args : list carg) : float :=
  match p with
  | ptr_fun f =>
      match f with
      | fn_pi => call0 pi args
      | fn_e => call0 e args
      | fn_fac => call1 fac args
      | fn_ncr => call2 ncr args
      | fn_npr => call2 npr args
      | fn_add => call2 add args
      | fn_sub => call2 sub args
      | fn_mul => call2 mul args
      | fn_divide => call2 divide args
      | fn_negate => call1 negate args
      | fn_comma => call2 comma args
      | fn_fabs => call1 fabs args
      | fn_acos => call1 acos args
      | fn_asin => call1 asin args
      | fn_atan => call1 atan args
      | fn_atan2 => call2 atan2 args
      | fn_ceil => call1 ceil args
      | fn_cos => call1 cos args
      | fn_cosh => call1 cosh args
      | fn_exp => call1 exp args
      | fn_floor => call1 floor args
      | fn_log => call1 log args
      | fn_log10 => call1 log10 args
      | fn_pow => call2 pow args
      | fn_sin => call1 sin args
      | fn_sinh => call1 sinh args
      | fn_sqrt => call1 sqrt args
      | fn_tan => call1 tan args
      | fn_tanh => call1 tanh args
      | fn_fmod => call2 fmod args
      | fn_extern id => extern id args
      end
  | _ => nan
  end.

(* ================================================================== *)
(** * The built-in table and the two lookups *)

Definition builtin (name : string) (f : fn) (type : Z) : te_variable :=
  {| v_name := name; v_address := ptr_fun f; v_type := type; v_context := null |}.

(** [functions[]], without its terminating {0, 0, 0, 0}; [log] is the
    base 10 logarithm (TE_NAT_LOG is not defined). *)
Definition functions : list te_variable :=
  [ builtin "abs" fn_fabs (Z.lor TE_FUNCTION1 TE_FLAG_PURE);
    builtin "acos" fn_acos (Z.lor TE_FUNCTION1 TE_FLAG_PURE);
    builtin "asin" fn_asin (Z.lor TE_FUNCTION1 TE_FLAG_PURE);
    builtin "atan" fn_atan (Z.lor TE_FUNCTION1 TE_FLAG_PURE);
    builtin "atan2" fn_atan2 (Z.lor TE_FUNCTION2 TE_FLAG_PURE);
    builtin "ceil" fn_ceil (Z.lor TE_FUNCTION1 TE_FLAG_PURE);
    builtin "cos" fn_cos (Z.lor TE_FUNCTION1 TE_FLAG_PURE);
    builtin "cosh" fn_cosh (Z.lor TE_FUNCTION1 TE_FLAG_PURE);
    builtin "e" fn_e (Z.lor TE_FUNCTION0 TE_FLAG_PURE);
    builtin "exp" fn_exp (Z.lor TE_FUNCTION1 TE_FLAG_PURE);
    builtin "fac" fn_fac (Z.lor TE_FUNCTION1 TE_FLAG_PURE);
    builtin "floor" fn_floor (Z.lor TE_FUNCTION1 TE_FLAG_PURE);
    builtin "ln" fn_log (Z.lor TE_FUNCTION1 TE_FLAG_PURE);
    builtin "log" fn_log10 (Z.lor TE_FUNCTION1 TE_FLAG_PURE);
    builtin "log10" fn_log10 (Z.lor TE_FUNCTION1 TE_FLAG_PURE);
    builtin "ncr" fn_ncr (Z.lor TE_FUNCTION2 TE_FLAG_PURE);
    builtin "npr" fn_npr (Z.lor TE_FUNCTION2 TE_FLAG_PURE);
    builtin "pi" fn_pi (Z.lor TE_FUNCTION0 TE_FLAG_PURE);
    builtin "pow" fn_pow (Z.lor TE_FUNCTION2 TE_FLAG_PURE);
    builtin "sin" fn_sin (Z.lor TE_FUNCTION1 TE_FLAG_PURE);
    builtin "sinh" fn_sinh (Z.lor TE_FUNCTION1 TE_FLAG_PURE);
    builtin "sqrt" fn_sqrt (Z.lor TE_FUNCTION1 TE_FLAG_PURE);
    builtin "tan" fn_tan (Z.lor TE_FUNCTION1 TE_FLAG_PURE);
    builtin "tanh" fn_tanh (Z.lor TE_FUNCTION1 TE_FLAG_PURE) ].

(** [functions[i]] for an index inside the table. *)
Definition functions_at (i : Z) : te_variable :=
  nth (Z.to_nat i) functions (builtin EmptyString fn_pi 0).

(** The value of [c] after the two comparisons of [find_builtin] (and the
    test of [find_lookup], which reads the same two expressions). *)
Definition name_cmp (name entry : string) (len : nat) : Z :=
  let c := strncmp name entry len in
  if c =? 0 then code Ascii.zero - code (char_at entry len) else c.

(** The loop of [find_builtin]; the interval gets shorter each time, so
    [fuel] above its length is never used up. *)
Fixpoint find_builtin_loop (fuel : nat) (name : string) (len : nat) (imin imax : Z)
  : option te_variable :=
  match fuel with
  | O => None
  | S fuel' =>
      if imax >=? imin then
        let i := imin + Z.quot (imax - imin) 2 in
        let c := name_cmp name (v_name (functions_at i)) len in
        if c =? 0 then Some (functions_at i)
        else if c >? 0 then find_builtin_loop fuel' name len (i + 1) imax
        else find_builtin_loop fuel' name len imin (i - 1)
      else None
  end.

(** [sizeof(functions) / sizeof(te_variable) - 2] is the index of the last
    entry before the terminator. *)
Definition find_builtin (name : string) (len : nat) : option te_variable :=
  find_builtin_loop (S (List.length functions)) name len 0
    (Z.of_nat (List.length functions) - 1).

(** [find_lookup], on the [lookup_len] bindings of the caller (none when
    [lookup] is null). *)
Fixpoint find_lookup (lookup : list te_variable) (name : string) (len : nat)
  : option te_variable :=
  match lookup with
  | [] => None
  | var :: rest =>
      if (strncmp name (v_name var) len =? 0)
         && (char_at (v_name var) len =? Ascii.zero)%char
      then Some var
      else find_lookup rest name len
  end.

(* ================================================================== *)
(** * The parser state and the tokenizer *)

(** [struct state], with [next - start] in place of [start], the
    [lookup_len] bindings [lookup] points to, and two counters for the
    heap: the number of calls of [malloc] so far, and the number of blocks
    allocated and not released. *)
Record state : Type := {
  s_next : string;
  s_pos : Z;
  s_type : Z;
  s_u : te_union;
  s_context : pointer;
  s_lookup : list te_variable;
  heap_calls : nat;
  heap_live : Z
}.

Definition with_type (s : state) (t : Z) : state :=
  {| s_next := s_next s; s_pos := s_pos s; s_type := t; s_u := s_u s;
     s_context := s_context s; s_lookup := s_lookup s;
     heap_calls := heap_calls s; heap_live := heap_live s |}.

Definition with_u (s : state) (u : te_union) : state :=
  {| s_next := s_next s; s_pos := s_pos s; s_type := s_type s; s_u := u;
     s_context := s_context s; s_lookup := s_lookup s;
     heap_calls := heap_calls s; heap_live := heap_live s |}.

Definition with_context (s : state) (c : pointer) : state :=
  {| s_next := s_next s; s_pos := s_pos s; s_type := s_type s; s_u := s_u s;
     s_context := c; s_lookup := s_lookup s;
     heap_calls := heap_calls s; heap_live := heap_live s |}.

(** [s->next += n]. *)
Definition advance (n : nat) (s : state) : state :=
  {| s_next := drop n (s_next s); s_pos := s_pos s + Z.of_nat n;
     s_type := s_type s; s_u := s_u s;
     s_context := s_context s; s_lookup := s_lookup s;
     heap_calls := heap_calls s; heap_live := heap_live s |}.

Definition with_heap (s : state) (calls : nat) (live : Z) : state :=
  {| s_next := s_next s; s_pos := s_pos s; s_type := s_type s; s_u := s_u s;
     s_context := s_context s; s_lookup := s_lookup s;
     heap_calls := calls; heap_live := live |}.

(** [s->function == f]. *)
Definition is_fn (u : te_union) (f : fn) : bool :=
  match u with
  | Ptr (ptr_fun g) => fn_eqb g f
  | _ => false
  end.

(** The length of the identifier at the head of the input. *)
Fixpoint ident_len (s : string) : nat :=
  match s with
  | String c s' =>
      if isalpha c || isdigit c || (c =? "_")%char then S (ident_len s') else O
  | EmptyString => O
  end.

(** The switch on [TYPE_MASK(var->type)]: no case for a type that is
    neither a variable, a function nor a closure, which leaves
    [TOK_NULL]. *)
Definition set_token (var : te_variable) (s : state) : state :=
  let m := TYPE_MASK (v_type var) in
  if m =? TE_VARIABLE then
    with_u (with_type s TOK_VARIABLE) (Ptr (v_address var))
  else if (TE_CLOSURE0 <=? m) && (m <=? TE_CLOSURE7) then
    with_u (with_type (with_context s (v_context var)) (v_type var))
      (Ptr (v_address var))
  else if (TE_FUNCTION0 <=? m) && (m <=? TE_FUNCTION7) then
    with_u (with_type s (v_type var)) (Ptr (v_address var))
  else s.

Definition infix (s : state) (f : fn) : state :=
  with_u (with_type s TOK_INFIX) (Ptr (ptr_fun f)).

(** The switch on an operator or special character. *)
Definition operator (c : ascii) (s : state) : state :=
  if (c =? "+")%char then infix s fn_add
  else if (c =? "-")%char then infix s fn_sub
  else if (c =? "*")%char then infix s fn_mul
  else if (c =? "/")%char then infix s fn_divide
  else if (c =? "^")%char then infix s fn_pow
  else if (c =? "%")%char then infix s fn_fmod
  else if (c =? "(")%char then with_type s TOK_OPEN
  else if (c =? ")")%char then with_type s TOK_CLOSE
  else if (c =? ",")%char then with_type s TOK_SEP
  else if (c =? " ")%char || (c =? "009")%char || (c =? "010")%char
          || (c =? "013")%char then s
  else with_type s TOK_ERROR.

Section Program.

Context {H : Host}.

(** The caller's bindings first, the built-ins only when none matched. *)
Definition resolve (lookup : list te_variable) (start : string) (len : nat)
  : option te_variable :=
  match find_lookup lookup start len with
  | Some var => Some var
  | None => find_builtin start len
  end.

(** One turn of the do-while loop of [next_token], the input not being at
    its end. *)
Definition scan (c : ascii) (s : state) : state :=
  if (("0" <=? c) && (c <=? "9"))%char || (c =? ".")%char then
    let r := strtod (s_next s) in
    with_type (with_u (advance (snd r) s) (Value (fst r))) TOK_NUMBER
  else if isalpha c then
    let start := s_next s in
    let len := ident_len start in
    let s := advance len s in
    match resolve (s_lookup s) start len with
    | None => with_type s TOK_ERROR
    | Some var => set_token var s
    end
  else operator c (advance 1 s).

(** The do-while loop of [next_token]: every turn that does not end it
    reads at least one character, so [fuel] above the length of the input
    is never used up. *)
Fixpoint next_token_loop (fuel : nat) (s : state) : state :=
  match fuel with
  | O => s
  | S fuel' =>
      match s_next s with
      | EmptyString => with_type s TOK_END
      | String c _ =>
          let s' := scan c s in
          if s_type s' =? TOK_NULL then next_token_loop fuel' s' else s'
      end
  end.

Definition next_token (s : state) : state :=
  next_token_loop (S (String.length (s_next s))) (with_type s TOK_NULL).

(* ================================================================== *)
(** * Allocation and release of nodes *)

(** Whether the call of [malloc] number [k] succeeds. *)
Variable malloc_ok : nat -> bool.

(** [memcpy] of [n] pointers from [src] to [dst]. *)
Definition memcpy {A : Type} (dst src : list A) (n : nat) : list A :=
  firstn n src ++ skipn (List.length (firstn n src)) dst.

(** [new_expr]; [parameters] is empty for a null argument. *)
Definition new_expr (type : Z) (parameters : list (slot te_expr)) (s : state)
  : option te_expr * state :=
  let arity := ARITY type in
  if malloc_ok (heap_calls s) then
    let size := (Z.to_nat arity + (if IS_CLOSURE type then 1 else 0))%nat in
    let zeroed := repeat (raw null) size in
    (Some (Node type (Ptr null) (memcpy zeroed parameters (Z.to_nat arity))),
     with_heap s (S (heap_calls s)) (heap_live s + 1))
  else (None, with_heap s (S (heap_calls s)) (heap_live s)).

(** The number of children [te_free_parameters] visits: the switch on
    [TYPE_MASK(n->type)] with its fall-through. *)
Definition owned (type : Z) : nat :=
  let m := TYPE_MASK type in
  if ((TE_FUNCTION1 <=? m) && (m <=? TE_FUNCTION7))
     || ((TE_CLOSURE1 <=? m) && (m <=? TE_CLOSURE7))
  then Z.to_nat (Z.land m 7) else O.

Section First.
Context {A : Type}.
Variable f : A -> Z.
  (** The sum of [f] over the first [k] elements. *)
Fixpoint sum_first (k : nat) (l : list A) {struct l} : Z :=
    match k, l with
    | S k', x :: l' => f x + sum_first k' l'
    | _, _ => 0
    end.
Variable g : A -> A.
  (** [g] applied to the first [k] elements. *)
Fixpoint map_first (k : nat) (l : list A) {struct l} : list A :=
    match k, l with
    | S k', x :: l' => g x :: map_first k' l'
    | _, _ => l
    end.
End First.

(** The number of blocks [te_free(n)] releases. *)
Fixpoint te_blocks (n : te_expr) : Z :=
  let 'Node type _ ps := n in
  1 + sum_first (fun p => match p with child c => te_blocks c | _ => 0 end)
        (owned type) ps.

(** [te_free(n)], [n] not null. *)
Definition te_free (n : te_expr) (s : state) : state :=
  with_heap s (heap_calls s) (heap_live s - te_blocks n).

(** [te_free_parameters(n)] as the node sees it: the slots keep the
    addresses of the released children. *)
Definition te_free_parameters (n : te_expr) : te_expr :=
  let 'Node type u ps := n in
  Node type u
    (map_first (fun p => match p with child _ => freed | _ => p end)
       (owned type) ps).

(* ================================================================== *)
(** * The parser *)

(** What a parse routine returns: the subtree (or null) and the state; or
    nothing when the recursion depth [n] it was given is used up. *)
Definition res : Type := option (option te_expr * state).

(** The loop of [power] over the signs: the sign and the state at the
    first token that is not a sign. *)
Fixpoint power_signs (k : nat) (sign : Z) (s : state) : Z * state :=
  if (s_type s =? TOK_INFIX) && (is_fn (s_u s) fn_add || is_fn (s_u s) fn_sub)
  then
    match k with
    | O => (sign, s)
    | S k' =>
        power_signs k' (if is_fn (s_u s) fn_sub then - sign else sign)
          (next_token s)
    end
  else (sign, s).

Section Loops.
  (** The routine one level down, with the depth it is given. *)
Variable sub : state -> res.

  (** The function of the operator when the loop goes on. *)
Variable op : state -> option pointer.

  (** The while loop of [factor], [term], [expr] and [list]. *)
Fixpoint infix_loop (k : nat) (ret : te_expr) (s : state) : res :=
    match op s with
    | None => Some (Some ret, s)
    | Some t =>
        match k with
        | O => None
        | S k' =>
            match sub (next_token s) with
            | None => None
            | Some (None, s) => Some (None, te_free ret s)
            | Some (Some p, s) =>
                match new_expr (Z.lor TE_FUNCTION2 TE_FLAG_PURE)
                        [child ret; child p] s with
                | (None, s) => Some (None, te_free ret (te_free p s))
                | (Some node, s) => infix_loop k' (set_u node (Ptr t)) s
                end
            end
        end
    end.

  (** The for loop of [base] over the arguments of a function of two or
      more arguments: the node, the value of [i] on leaving the loop, and
      the state; a null node after [te_free(ret)]. *)
Fixpoint base_args (k : nat) (i : Z) (ret : te_expr) (s : state)
    : option (option (te_expr * Z) * state) :=
    match k with
    | O => Some (Some (ret, i), s)
    | S k' =>
        match sub (next_token s) with
        | None => None
        | Some (None, s) => Some (None, te_free ret s)
        | Some (Some a, s) =>
            let ret := set_param ret i (child a) in
            if negb (s_type s =? TOK_SEP) then Some (Some (ret, i), s)
            else base_args k' (i + 1) ret s
        end
    end.
End Loops.

Definition op_pow (s : state) : option pointer :=
  if (s_type s =? TOK_INFIX) && is_fn (s_u s) fn_pow
  then Some (ptr_of (s_u s)) else None.

Definition op_mul (s : state) : option pointer :=
  if (s_type s =? TOK_INFIX)
     && (is_fn (s_u s) fn_mul || is_fn (s_u s) fn_divide || is_fn (s_u s) fn_fmod)
  then Some (ptr_of (s_u s)) else None.

Definition op_add (s : state) : option pointer :=
  if (s_type s =? TOK_INFIX) && (is_fn (s_u s) fn_add || is_fn (s_u s) fn_sub)
  then Some (ptr_of (s_u s)) else None.

Definition op_comma (s : state) : option pointer :=
  if s_type s =? TOK_SEP then Some (ptr_fun fn_comma) else None.

(** A bound on the turns of a loop that reads a token each turn. *)
Definition turns (s : state) : nat := S (String.length (s_next s)).

(** The node of [base] for a function or closure token: [new_expr], the
    function, and the context in the slot the source names. *)
Definition callee (slot_of_context : Z) (ret : te_expr) (s : state) : te_expr :=
  let ret := set_u ret (Ptr (ptr_of (s_u s))) in
  if IS_CLOSURE (s_type s) then set_param ret slot_of_context (raw (s_context s))
  else ret.

(** The body of [base]; [power], [expr] and [list_] are the three routines
    it calls, with the recursion depth they are given. *)
Definition base_body (power expr list_ : state -> res) (s : state) : res :=
  let m := TYPE_MASK (s_type s) in
  if m =? TOK_NUMBER then
    match new_expr TE_CONSTANT [] s with
    | (None, s) => Some (None, s)
    | (Some ret, s) =>
        Some (Some (set_u ret (Value (value_of (s_u s)))), next_token s)
    end
  else if m =? TOK_VARIABLE then
    match new_expr TE_VARIABLE [] s with
    | (None, s) => Some (None, s)
    | (Some ret, s) =>
        Some (Some (set_u ret (Ptr (ptr_of (s_u s)))), next_token s)
    end
  else if (m =? TE_FUNCTION0) || (m =? TE_CLOSURE0) then
    match new_expr (s_type s) [] s with
    | (None, s) => Some (None, s)
    | (Some ret, s) =>
        let ret := callee 0 ret s in
        let s := next_token s in
        if s_type s =? TOK_OPEN then
          let s := next_token s in
          if negb (s_type s =? TOK_CLOSE)
          then Some (Some ret, with_type s TOK_ERROR)
          else Some (Some ret, next_token s)
        else Some (Some ret, s)
    end
  else if (m =? TE_FUNCTION1) || (m =? TE_CLOSURE1) then
    match new_expr (s_type s) [] s with
    | (None, s) => Some (None, s)
    | (Some ret, s) =>
        let ret := callee 1 ret s in
        match power (next_token s) with
        | None => None
        | Some (None, s) => Some (None, te_free ret s)
        | Some (Some p, s) => Some (Some (set_param ret 0 (child p)), s)
        end
    end
  else if ((TE_FUNCTION2 <=? m) && (m <=? TE_FUNCTION7))
          || ((TE_CLOSURE2 <=? m) && (m <=? TE_CLOSURE7)) then
    let arity := ARITY (s_type s) in
    match new_expr (s_type s) [] s with
    | (None, s) => Some (None, s)
    | (Some ret, s) =>
        let ret := callee arity ret s in
        let s := next_token s in
        if negb (s_type s =? TOK_OPEN)
        then Some (Some ret, with_type s TOK_ERROR)
        else
          match base_args expr (Z.to_nat arity) 0 ret s with
          | None => None
          | Some (None, s) => Some (None, s)
          | Some (Some (ret, i), s) =>
              if negb (s_type s =? TOK_CLOSE) || negb (i =? arity - 1)
              then Some (Some ret, with_type s TOK_ERROR)
              else Some (Some ret, next_token s)
          end
    end
  else if m =? TOK_OPEN then
    match list_ (next_token s) with
    | None => None
    | Some (None, s) => Some (None, s)
    | Some (Some ret, s) =>
        if negb (s_type s =? TOK_CLOSE)
        then Some (Some ret, with_type s TOK_ERROR)
        else Some (Some ret, next_token s)
    end
  else
    match new_expr 0 [] s with
    | (None, s) => Some (None, s)
    | (Some ret, s) =>
        Some (Some (set_u ret (Value nan)), with_type s TOK_ERROR)
    end.

(** The else branch of [power]: the base wrapped in a negation. *)
Definition negation (base : state -> res) (s : state) : res :=
  match base s with
  | None => None
  | Some (None, s) => Some (None, s)
  | Some (Some b, s) =>
      match new_expr (Z.lor TE_FUNCTION1 TE_FLAG_PURE) [child b] s with
      | (None, s) => Some (None, te_free b s)
      | (Some ret, s) =>
          Some (Some (set_u ret (Ptr (ptr_fun fn_negate))), s)
      end
  end.

(** The body of [power]. *)
Definition power_body (base : state -> res) (s : state) : res :=
  let '(sign, s) := power_signs (turns s) 1 s in
  if sign =? 1 then base s else negation base s.

(** The body of [factor], [term], [expr] and [list]: the routine one level
    down, then the loop over the operators of this level. *)
Definition level (sub : state -> res) (op : state -> option pointer) (s : state)
  : res :=
  match sub s with
  | None => None
  | Some (None, s) => Some (None, s)
  | Some (Some ret, s) => infix_loop sub op (turns s) ret s
  end.

(** The six routines; [n] bounds the depth of the calls. *)
Fixpoint base (n : nat) (s : state) {struct n} : res :=
  match n with
  | O => None
  | S n' => base_body (power n') (expr n') (list_ n') s
  end

with power (n : nat) (s : state) {struct n} : res :=
  match n with
  | O => None
  | S n' => power_body (base n') s
  end

with factor (n : nat) (s : state) {struct n} : res :=
  match n with
  | O => None
  | S n' => level (power n') op_pow s
  end

with term (n : nat) (s : state) {struct n} : res :=
  match n with
  | O => None
  | S n' => level (factor n') op_mul s
  end

with expr (n : nat) (s : state) {struct n} : res :=
  match n with
  | O => None
  | S n' => level (term n') op_add s
  end

with list_ (n : nat) (s : state) {struct n} : res :=
  match n with
  | O => None
  | S n' => level (expr n') op_comma s
  end.

(* ================================================================== *)
(** * The evaluator and the optimizer *)

(** [n->parameters[i]] read as a [void *]. *)
Definition slot_ptr (ps : list (slot te_expr)) (i : nat) : pointer :=
  match nth_error ps i with
  | Some (raw p) => p
  | _ => null
  end.

(** [te_eval].  [M e] is [te_eval(n->parameters[e])], NaN for a null
    pointer; the two inner switches on [ARITY(n->type)] call the function
    with [M(0)], ..., [M(arity - 1)], a closure with
    [n->parameters[arity]] before them. *)
Fixpoint te_eval (n : te_expr) : float :=
  let 'Node type u ps := n in
  let vals := map (fun p => match p with child c => te_eval c | _ => nan end) ps in
  let M := fun e : nat => nth e vals nan in
  let args := fun k : nat => map (fun e => arg_double (M e)) (seq 0 k) in
  let m := TYPE_MASK type in
  let arity := ARITY type in
  if m =? TE_CONSTANT then value_of u
  else if m =? TE_VARIABLE then
    match ptr_of u with
    | ptr_double l => deref l
    | _ => nan
    end
  else if (TE_FUNCTION0 <=? m) && (m <=? TE_FUNCTION7) then
    if (0 <=? arity) && (arity <=? 7)
    then call (ptr_of u) (args (Z.to_nat arity))
    else nan
  else if (TE_CLOSURE0 <=? m) && (m <=? TE_CLOSURE7) then
    if (0 <=? arity) && (arity <=? 7)
    then call (ptr_of u)
           (arg_ptr (slot_ptr ps (Z.to_nat arity)) :: args (Z.to_nat arity))
    else nan
  else nan.

(** The type of the child in [n->parameters[i]] is not [TE_CONSTANT]; the
    slot holds a child in every tree the parser accepts. *)
Definition unknown (p : slot te_expr) : bool :=
  match p with
  | child c => negb (e_type c =? TE_CONSTANT)
  | _ => true
  end.

(** [optimize], returning the node it leaves. *)
Fixpoint optimize (n : te_expr) : te_expr :=
  let 'Node type u ps := n in
  if type =? TE_CONSTANT then n
  else if type =? TE_VARIABLE then n
  else if IS_PURE type then
    let arity := Z.to_nat (ARITY type) in
    let ps :=
      map_first (fun p => match p with child c => child (optimize c) | _ => p end)
        arity ps in
    let known := negb (existsb unknown (firstn arity ps)) in
    let n := Node type u ps in
    if known then
      let value := te_eval n in
      set_u (set_type (te_free_parameters n) TE_CONSTANT) (Value value)
    else n
  else n.

(* ================================================================== *)
(** * The entry points *)

(** The state [te_compile] starts from. *)
Definition initial (expression : string) (variables : list te_variable) : state :=
  {| s_next := expression; s_pos := 0; s_type := TOK_NULL; s_u := Ptr null;
     s_context := null; s_lookup := variables;
     heap_calls := O; heap_live := 0 |}.

(** A recursion depth that no expression of this length uses up. *)
Definition parse_depth (expression : string) : nat :=
  (6 * String.length expression + 6)%nat.

(** The first two statements of [te_compile]: the first token and the
    root. *)
Definition parse (expression : string) (variables : list te_variable) : res :=
  list_ (parse_depth expression) (next_token (initial expression variables)).

(** [te_compile]: the tree it returns, the value it leaves in [*error],
    and the final state. *)
Definition te_compile (expression : string) (variables : list te_variable)
  : option te_expr * Z * state :=
  match parse expression variables with
  | None => (None, 0, initial expression variables)
  | Some (None, s) => (None, -1, s)
  | Some (Some root, s) =>
      if negb (s_type s =? TOK_END) then
        let s := te_free root s in
        let error := s_pos s in
        (None, (if error =? 0 then 1 else error), s)
      else (Some (optimize root), 0, s)
  end.


End Program.

(** No call of [malloc] fails. *)
Definition plenty : nat -> bool := fun _ => true.

(* ================================================================== *)
(** * A small host *)

(** A host to run examples on: its [strtod] reads a run of decimal digits,
    its [pow] knows the exponents 0 to 3, [fabs] and [sqrt] are those of
    the processor; it knows no other function of math.h, and the calling
    program has nothing to offer. *)
Fixpoint digits (s : string) (acc : Z) : Z * nat :=
  match s with
  | String c s' =>
      if is_digit c
      then let '(v, n) := digits s' (10 * acc + (code c - 48)) in (v, S n)
      else (acc, O)
  | EmptyString => (acc, O)
  end.

Definition small_strtod (s : string) : float * nat :=
  let '(v, n) := digits s 0 in (double_of_ulong v, n).

Definition small_pow (x y : float) : float :=
  if (y =? 0)%float then 1%float
  else if (y =? 1)%float then x
  else if (y =? 2)%float then (x * x)%float
  else if (y =? 3)%float then (x * x * x)%float
  else nan.

Lemma digits_end (s : string) (acc : Z) : (snd (digits s acc) <= String.length s)%nat.
Proof.
  revert acc. induction s as [|c s IH]; intros acc; cbn [digits String.length snd].
  - lia.
  - destruct (is_digit c); cbn [snd]; [|lia].
    specialize (IH (10 * acc + (code c - 48))).
    destruct (digits s (10 * acc + (code c - 48))) as [v n]; cbn [snd] in *. lia.
Qed.

Lemma small_strtod_end (s : string) : (snd (small_strtod s) <= String.length s)%nat.
Proof.
  unfold small_strtod. pose proof (digits_end s 0) as E.
  destruct (digits s 0); simpl in *. exact E.
Qed.

Definition small_host : Host :=
  {| strtod := small_strtod;
     strtod_end := small_strtod_end;
     fabs := PrimFloat.abs;
     acos := fun _ => nan;
     asin := fun _ => nan;
     atan := fun _ => nan;
     atan2 := fun _ _ => nan;
     ceil := fun _ => nan;
     cos := fun _ => nan;
     cosh := fun _ => nan;
     exp := fun _ => nan;
     floor := fun _ => nan;
     log := fun _ => nan;
     log10 := fun _ => nan;
     pow := small_pow;
     sin := fun _ => nan;
     sinh := fun _ => nan;
     sqrt := PrimFloat.sqrt;
     tan := fun _ => nan;
     tanh := fun _ => nan;
     fmod := fun _ _ => nan;
     deref := fun _ => 0%float;
     extern := fun _ _ => nan |}.

(* ================================================================== *)
(** * Names: the comparisons of the two lookups *)

Definition ident_char (c : ascii) : bool :=
  isalpha c || isdigit c || (c =? "_")%char.

Lemma ident_char_code (c : ascii) : ident_char c = true -> 0 < code c.
Proof.
  intros Hc. unfold code.
  destruct (N.eq_dec (N_of_ascii c) 0) as [E|E]; [|lia].
  assert (c = Ascii.zero) as ->.
  { rewrite <- (ascii_N_embedding c), E. reflexivity. }
  discriminate Hc.
Qed.

Lemma code_inj (c d : ascii) : code c = code d -> c = d.
Proof.
  unfold code. intros E. apply N2Z.inj in E.
  rewrite <- (ascii_N_embedding c), <- (ascii_N_embedding d), E. reflexivity.
Qed.

Lemma code_nonneg (c : ascii) : 0 <= code c.
Proof. unfold code. lia. Qed.

Lemma ident_len_step (c : ascii) (s : string) (len : nat) :
  (S len <= ident_len (String c s))%nat ->
  ident_char c = true /\ (len <= ident_len s)%nat.
Proof.
  cbn [ident_len]. fold (ident_char c).
  destruct (ident_char c); [split; [reflexivity|lia] | lia].
Qed.

Lemma ident_len_nil (len : nat) : (S len <= ident_len EmptyString)%nat -> False.
Proof. cbn. lia. Qed.

(** The sign of [name_cmp] is the lexicographic comparison of the
    identifier with the name of the entry. *)
Lemma name_cmp_compare (name entry : string) (len : nat) :
  (len <= ident_len name)%nat -> nul_free entry = true ->
  match String.compare (take len name) entry with
  | Eq => name_cmp name entry len = 0
  | Lt => name_cmp name entry len < 0
  | Gt => name_cmp name entry len > 0
  end.
Proof.
  revert name entry. induction len as [|len IH]; intros name entry Hlen Hnul.
  - unfold name_cmp. destruct name; cbn [take strncmp Z.eqb];
      destruct entry as [|d entry]; cbn [String.compare char_at];
      try reflexivity; cbn [nul_free] in Hnul;
      apply andb_prop in Hnul as [Hd _]; apply negb_true_iff in Hd;
      apply Ascii.eqb_neq in Hd;
      assert (code d <> 0) by (intros E; apply Hd, code_inj; exact E);
      pose proof (code_nonneg d); change (code Ascii.zero) with 0; lia.
  - destruct name as [|c name]; [destruct (ident_len_nil _ Hlen)|].
    apply ident_len_step in Hlen as [Hc Hlen].
    pose proof (ident_char_code c Hc) as Hpos.
    destruct entry as [|d entry]; cbn [take String.compare].
    + unfold name_cmp; cbn [strncmp].
      destruct (code c =? 0) eqn:E; [apply Z.eqb_eq in E; lia | lia].
    + cbn [nul_free] in Hnul. apply andb_prop in Hnul as [_ Hnul].
      specialize (IH name entry Hlen Hnul).
      unfold Ascii.compare. rewrite N.compare_antisym.
      destruct (Ascii.eqb_spec c d) as [->|Hcd].
      * rewrite N.compare_refl. cbn [CompOpp].
        unfold name_cmp in *. cbn [strncmp char_at]. rewrite Ascii.eqb_refl.
        exact IH.
      * assert (code c <> code d) as Hne by (intros E; apply Hcd, code_inj, E).
        unfold name_cmp; cbn [strncmp].
        apply Ascii.eqb_neq in Hcd. rewrite Hcd.
        destruct (code c - code d =? 0) eqn:E; [apply Z.eqb_eq in E; lia|].
        unfold code in *.
        destruct (N.compare_spec (N_of_ascii d) (N_of_ascii c)) as [E'|E'|E'];
          cbn [CompOpp]; lia.
Qed.

Lemma compare_refl_string (a : string) : String.compare a a = Eq.
Proof.
  induction a as [|c a IH]; cbn; [reflexivity|].
  unfold Ascii.compare. rewrite N.compare_refl. exact IH.
Qed.

Lemma name_cmp_zero (name entry : string) (len : nat) :
  (len <= ident_len name)%nat -> nul_free entry = true ->
  name_cmp name entry len = 0 <-> entry = take len name.
Proof.
  intros Hlen Hnul. pose proof (name_cmp_compare name entry len Hlen Hnul) as Hc.
  destruct (String.compare (take len name) entry) eqn:E.
  - apply String.compare_eq_iff in E. split; intros; [congruence|assumption].
  - split; [lia|]. intros ->. rewrite compare_refl_string in E. discriminate.
  - split; [lia|]. intros ->. rewrite compare_refl_string in E. discriminate.
Qed.

(** The test of [find_lookup] is the equality of the names. *)
Lemma lookup_test (name entry : string) (len : nat) :
  (len <= ident_len name)%nat -> nul_free entry = true ->
  (strncmp name entry len =? 0) && (char_at entry len =? Ascii.zero)%char
  = (entry =? take len name)%string.
Proof.
  intros Hlen Hnul.
  pose proof (name_cmp_zero name entry len Hlen Hnul) as Hz.
  unfold name_cmp in Hz.
  destruct (String.eqb_spec entry (take len name)) as [E|E].
  - apply Hz in E. destruct (strncmp name entry len =? 0) eqn:E0;
      [|apply Z.eqb_neq in E0; contradiction].
    cbn [andb]. apply Ascii.eqb_eq, code_inj.
    change (code Ascii.zero) with 0 in *. lia.
  - destruct (strncmp name entry len =? 0) eqn:E0; [|reflexivity].
    cbn [andb]. apply Ascii.eqb_neq. intros E1. apply E, Hz.
    rewrite E1. reflexivity.
Qed.

(** [find_lookup] returns the first binding, in the order of registration,
    whose name is the identifier. *)
Lemma find_lookup_first (lookup : list te_variable) (name : string) (len : nat) :
  (len <= ident_len name)%nat ->
  forallb (fun v => nul_free (v_name v)) lookup = true ->
  find_lookup lookup name len
  = find (fun v => (v_name v =? take len name)%string) lookup.
Proof.
  intros Hlen. induction lookup as [|v lookup IH]; intros Hnul; [reflexivity|].
  cbn [forallb] in Hnul. apply andb_prop in Hnul as [Hv Hnul].
  cbn [find_lookup find]. rewrite (lookup_test name (v_name v) len Hlen Hv).
  destruct (v_name v =? take len name)%string; [reflexivity|]. apply IH, Hnul.
Qed.

(* ================================================================== *)
(** * The binary search of [find_builtin] *)

Lemma compare_lt_trans (a b c : string) :
  String.compare a b = Lt -> String.compare b c = Lt -> String.compare a c = Lt.
Proof.
  revert b c. induction a as [|x a IH]; intros [|y b] [|z c]; cbn;
    try discriminate; try reflexivity.
  unfold Ascii.compare.
  destruct (N.compare_spec (N_of_ascii x) (N_of_ascii y)) as [E1|E1|E1];
    try discriminate;
    destruct (N.compare_spec (N_of_ascii y) (N_of_ascii z)) as [E2|E2|E2];
    try discriminate; intros H1 H2.
  - rewrite E1, E2, N.compare_refl. eapply IH; eassumption.
  - rewrite E1. apply N.compare_lt_iff in E2. rewrite E2. reflexivity.
  - rewrite <- E2. apply N.compare_lt_iff in E1. rewrite E1. reflexivity.
  - assert (N_of_ascii x < N_of_ascii z)%N as E by lia.
    apply N.compare_lt_iff in E. rewrite E. reflexivity.
Qed.

(** Each name is below the next one. *)
Fixpoint ascending (l : list string) : bool :=
  match l with
  | x :: (y :: _) as l' =>
      match String.compare x y with Lt => ascending l' | _ => false end
  | _ => true
  end.

Lemma ascending_head (x : string) (l : list string) :
  ascending (x :: l) = true -> forall y, In y l -> String.compare x y = Lt.
Proof.
  revert x. induction l as [|z l IH]; intros x Hasc y Hy; [destruct Hy|].
  cbn [ascending] in Hasc.
  destruct (String.compare x z) eqn:Hxz; try discriminate.
  destruct Hy as [<-|Hy]; [exact Hxz|].
  eapply compare_lt_trans; [exact Hxz|]. apply IH; assumption.
Qed.

Lemma ascending_tail (x : string) (l : list string) :
  ascending (x :: l) = true -> ascending l = true.
Proof.
  destruct l as [|z l]; [reflexivity|]. cbn [ascending].
  destruct (String.compare x z); try discriminate. exact (fun E => E).
Qed.

Lemma ascending_nth (l : list string) :
  ascending l = true ->
  forall i j, (i < j < List.length l)%nat ->
  String.compare (nth i l EmptyString) (nth j l EmptyString) = Lt.
Proof.
  induction l as [|x l IH]; intros Hasc i j Hij; [cbn in Hij; lia|].
  destruct j as [|j]; [lia|]. cbn [List.length] in Hij.
  destruct i as [|i]; cbn [nth].
  - apply (ascending_head x l Hasc). apply nth_In. lia.
  - apply IH; [eapply ascending_tail; eassumption | lia].
Qed.

Definition names : list string := map v_name functions.

Lemma names_ascending : ascending names = true.
Proof. reflexivity. Qed.

Lemma names_nul_free : forallb nul_free names = true.
Proof. reflexivity. Qed.

Lemma functions_at_name (i : Z) :
  v_name (functions_at i) = nth (Z.to_nat i) names EmptyString.
Proof.
  unfold functions_at, names.
  change EmptyString with (v_name (builtin EmptyString fn_pi 0)) at 2.
  symmetry. apply map_nth.
Qed.

Lemma functions_at_In (i : Z) :
  0 <= i < Z.of_nat (List.length functions) -> In (functions_at i) functions.
Proof. intros Hi. unfold functions_at. apply nth_In. lia. Qed.

Lemma In_functions_at (v : te_variable) :
  In v functions ->
  exists i, 0 <= i < Z.of_nat (List.length functions) /\ functions_at i = v.
Proof.
  intros Hv. destruct (In_nth _ _ (builtin EmptyString fn_pi 0) Hv) as (k & Hk & E).
  exists (Z.of_nat k). split; [lia|]. unfold functions_at.
  rewrite Nat2Z.id. exact E.
Qed.

Lemma functions_at_nul_free (i : Z) : nul_free (v_name (functions_at i)) = true.
Proof.
  rewrite functions_at_name.
  destruct (Nat.lt_ge_cases (Z.to_nat i) (List.length names)) as [Hi|Hi].
  - pose proof names_nul_free as Hn. rewrite forallb_forall in Hn.
    apply Hn, nth_In, Hi.
  - rewrite nth_overflow by exact Hi. reflexivity.
Qed.

Section Search.
Variable name : string.
Variable len : nat.
Hypothesis Hlen : (len <= ident_len name)%nat.

Let c (i : Z) : Z := name_cmp name (v_name (functions_at i)) len.
Let size : Z := Z.of_nat (List.length functions).

Lemma search_above (i j : Z) : 0 <= i < j -> j < size -> c j > 0 -> c i > 0.
  Proof.
    intros Hij Hj Hc. unfold c in *.
    pose proof (name_cmp_compare name _ len Hlen (functions_at_nul_free i)) as Hi.
    pose proof (name_cmp_compare name _ len Hlen (functions_at_nul_free j)) as Hj'.
    assert (String.compare (v_name (functions_at i)) (v_name (functions_at j)) = Lt)
      as Hlt.
    { rewrite !functions_at_name. apply ascending_nth; [exact names_ascending|].
      unfold names. rewrite length_map. unfold size in Hj. lia. }
    destruct (String.compare (take len name) (v_name (functions_at j))) eqn:Ej;
      try lia.
    destruct (String.compare (take len name) (v_name (functions_at i))) eqn:Ei.
    - apply String.compare_eq_iff in Ei. rewrite <- Ei in Hlt. congruence.
    - pose proof (compare_lt_trans _ _ _ Ei Hlt) as E. congruence.
    - exact Hi.
  Qed.

Lemma search_below (i j : Z) : 0 <= i < j -> j < size -> c i < 0 -> c j < 0.
  Proof.
    intros Hij Hj Hc. unfold c in *.
    pose proof (name_cmp_compare name _ len Hlen (functions_at_nul_free i)) as Hi.
    pose proof (name_cmp_compare name _ len Hlen (functions_at_nul_free j)) as Hj'.
    assert (String.compare (v_name (functions_at i)) (v_name (functions_at j)) = Lt)
      as Hlt.
    { rewrite !functions_at_name. apply ascending_nth; [exact names_ascending|].
      unfold names. rewrite length_map. unfold size in Hj. lia. }
    destruct (String.compare (take len name) (v_name (functions_at i))) eqn:Ei;
      try lia.
    rewrite (compare_lt_trans _ _ _ Ei Hlt) in Hj'. exact Hj'.
  Qed.

  (** The loop keeps every entry that could be the identifier between
      [imin] and [imax]. *)
Lemma find_builtin_loop_spec (fuel : nat) (imin imax : Z) :
    0 <= imin -> imax < size -> imax - imin + 1 < Z.of_nat fuel ->
    (forall i, 0 <= i < imin -> c i > 0) ->
    (forall i, imax < i < size -> c i < 0) ->
    match find_builtin_loop fuel name len imin imax with
    | Some v => exists i, 0 <= i < size /\ v = functions_at i /\ c i = 0
    | None => forall i, 0 <= i < size -> c i <> 0
    end.
  Proof.
    revert imin imax.
    induction fuel as [|fuel IH]; intros imin imax Hmin Hmax Hfuel Hlo Hhi.
    - cbn [find_builtin_loop]. intros i Hi.
      destruct (Z_lt_le_dec i imin) as [L|L]; [specialize (Hlo i); lia|].
      specialize (Hhi i). lia.
    - cbn [find_builtin_loop].
      destruct (imax >=? imin) eqn:Hge.
      + apply Z.geb_le in Hge.
        set (i := imin + (imax - imin) ÷ 2).
        assert (imin <= i <= imax) as Hi.
        { unfold i. rewrite Z.quot_div_nonneg by lia.
          pose proof (Z.div_pos (imax - imin) 2).
          assert ((imax - imin) / 2 <= imax - imin)
            by (apply Z.div_le_upper_bound; lia). lia. }
        fold (c i).
        destruct (c i =? 0) eqn:E0.
        * apply Z.eqb_eq in E0. exists i. repeat split; lia.
        * apply Z.eqb_neq in E0. destruct (c i >? 0) eqn:Eg.
          -- apply Z.gtb_lt in Eg. apply IH; [lia|lia|lia| |exact Hhi].
             intros k Hk. destruct (Z.eq_dec k i) as [->|Hne]; [lia|].
             destruct (Z_lt_le_dec k imin) as [L|L]; [apply Hlo; lia|].
             apply (search_above k i); lia.
          -- assert (c i < 0) as El.
             { destruct (Z.gtb_spec (c i) 0); [discriminate|lia]. }
             apply IH; [lia|lia|lia|exact Hlo|].
             intros k Hk. destruct (Z.eq_dec k i) as [->|Hne]; [lia|].
             destruct (Z_lt_le_dec imax k) as [L|L]; [apply Hhi; lia|].
             apply (search_below i k); lia.
      + intros i Hi. destruct (Z.geb_spec imax imin) as [|L]; [discriminate|].
        destruct (Z_lt_le_dec i imin) as [L'|L']; [specialize (Hlo i); lia|].
        specialize (Hhi i). lia.
  Qed.

Lemma find_builtin_spec :
    match find_builtin name len with
    | Some v => In v functions /\ v_name v = take len name
    | None => forall v, In v functions -> v_name v <> take len name
    end.
  Proof.
    pose proof (find_builtin_loop_spec (S (List.length functions)) 0 (size - 1))
      as Hs.
    unfold find_builtin. fold size.
    destruct (find_builtin_loop (S (List.length functions)) name len 0 (size - 1))
      as [v|].
    - destruct Hs as (i & Hi & -> & Hc); try (unfold size; lia).
      split; [apply functions_at_In; exact Hi|].
      apply (name_cmp_zero name _ len Hlen (functions_at_nul_free i)). exact Hc.
    - intros v Hv E. apply In_functions_at in Hv as (i & Hi & <-).
      apply (Hs ltac:(lia) ltac:(lia) ltac:(unfold size; lia)
               ltac:(intros; lia) ltac:(intros; lia) i Hi).
      apply (name_cmp_zero name _ len Hlen (functions_at_nul_free i)). exact E.
  Qed.
End Search.

(* ================================================================== *)
(** * The tokenizer: what [next_token] changes *)

Lemma drop_drop (a b : nat) (s : string) : drop a (drop b s) = drop (b + a) s.
Proof.
  revert s. induction b as [|b IH]; intros s; [reflexivity|].
  destruct s as [|c s]; cbn [drop Nat.add]; [destruct a; reflexivity | apply IH].
Qed.

Lemma length_drop (n : nat) (s : string) :
  String.length (drop n s) = (String.length s - n)%nat.
Proof.
  revert s. induction n as [|n IH]; intros s; cbn [drop]; [lia|].
  destruct s as [|c s]; cbn [String.length]; [reflexivity | apply IH].
Qed.

Lemma ident_len_le (s : string) : (ident_len s <= String.length s)%nat.
Proof.
  induction s as [|c s IH]; cbn [ident_len String.length]; [lia|].
  destruct (isalpha c || isdigit c || (c =? "_")%char); lia.
Qed.

(** A token that makes the parser read on: every kind but the five that no
    routine descends from. *)
Definition weight (type : Z) : nat :=
  if (type =? TOK_END) || (type =? TOK_ERROR) || (type =? TOK_CLOSE)
     || (type =? TOK_NUMBER) || (type =? TOK_VARIABLE)
  then O else 1%nat.

(** What is left to parse: the input not read yet, and the token. *)
Definition mu (s : state) : nat := (String.length (s_next s) + weight (s_type s))%nat.

(** [s'] is [s] further in the input: [k] more characters read, the
    bindings and the heap as they were. *)
Definition advanced (s s' : state) : Prop :=
  s_lookup s' = s_lookup s /\ heap_calls s' = heap_calls s /\
  heap_live s' = heap_live s /\
  exists k : nat, (k <= String.length (s_next s))%nat /\
    s_next s' = drop k (s_next s) /\ s_pos s' = s_pos s + Z.of_nat k.

Ltac same_place :=
  unfold advanced; cbn; repeat split; exists O; repeat split; [lia | cbn; lia].

Lemma advanced_refl (s : state) : advanced s s.
Proof. same_place. Qed.

Lemma advanced_trans (s1 s2 s3 : state) :
  advanced s1 s2 -> advanced s2 s3 -> advanced s1 s3.
Proof.
  intros (L1 & C1 & V1 & k1 & B1 & N1 & P1) (L2 & C2 & V2 & k2 & B2 & N2 & P2).
  repeat split; try congruence.
  exists (k1 + k2)%nat. rewrite N2, N1, drop_drop, P2, P1.
  rewrite N1, length_drop in B2. repeat split; lia.
Qed.

Lemma advanced_with_type (s : state) (t : Z) : advanced s (with_type s t).
Proof. same_place. Qed.

Lemma advanced_with_u (s : state) (u : te_union) : advanced s (with_u s u).
Proof. same_place. Qed.

Lemma advanced_with_context (s : state) (c : pointer) : advanced s (with_context s c).
Proof. same_place. Qed.

Lemma advanced_advance (n : nat) (s : state) :
  (n <= String.length (s_next s))%nat -> advanced s (advance n s).
Proof. intros Hn. repeat split. exists n. repeat split. exact Hn. Qed.

Section Tokens.
Context {H : Host}.

Lemma set_token_type (var : te_variable) (s : state) :
  advanced s (set_token var s) /\
  s_next (set_token var s) = s_next s.
Proof.
  unfold set_token.
  destruct (TYPE_MASK (v_type var) =? TE_VARIABLE);
    [split; [same_place | reflexivity]|].
  destruct ((TE_CLOSURE0 <=? TYPE_MASK (v_type var))
            && (TYPE_MASK (v_type var) <=? TE_CLOSURE7));
    [split; [same_place | reflexivity]|].
  destruct ((TE_FUNCTION0 <=? TYPE_MASK (v_type var))
            && (TYPE_MASK (v_type var) <=? TE_FUNCTION7));
    (split; [same_place | reflexivity]).
Qed.

Lemma operator_next (c : ascii) (s : state) :
  advanced s (operator c s) /\ s_next (operator c s) = s_next s.
Proof.
  unfold operator, infix.
  repeat match goal with
         | |- context [if ?b then _ else _] => destruct b
         end; (split; [same_place | reflexivity]).
Qed.

Lemma weight_le (t : Z) : (weight t <= 1)%nat.
Proof. unfold weight. destruct (_ || _); lia. Qed.

(** One turn of the loop: the state is further in the input; a turn that
    leaves no token has read a character, and a token that makes the parser
    read on was read from at least one character. *)
Lemma scan_spec (c : ascii) (r : string) (s : state) :
  s_next s = String c r ->
  advanced s (scan c s) /\
  (s_type (scan c s) = TOK_NULL ->
   (String.length (s_next (scan c s)) < String.length (s_next s))%nat) /\
  (mu (scan c s) <= String.length (s_next s))%nat.
Proof.
  intros Hs. unfold scan.
  destruct ((("0" <=? c) && (c <=? "9"))%char || (c =? ".")%char).
  - pose proof (strtod_end (s_next s)) as Hend.
    split; [|split].
    + eapply advanced_trans; [apply advanced_advance; exact Hend|].
      same_place.
    + intros E. discriminate E.
    + unfold mu. cbn. rewrite length_drop. lia.
  - destruct (isalpha c) eqn:Ha.
    + assert (1 <= ident_len (s_next s))%nat as Hlen.
      { rewrite Hs. cbn [ident_len]. rewrite Ha. cbn. lia. }
      pose proof (ident_len_le (s_next s)) as Hle.
      set (s1 := advance (ident_len (s_next s)) s).
      assert (advanced s s1) as A1 by (apply advanced_advance; exact Hle).
      assert (String.length (s_next s1) < String.length (s_next s))%nat as L1.
      { unfold s1. cbn [advance s_next]. rewrite length_drop. lia. }
      destruct (resolve (s_lookup s1) (s_next s) (ident_len (s_next s))) as [var|].
      * destruct (set_token_type var s1) as [A2 N2].
        split; [eapply advanced_trans; eassumption|].
        unfold mu. rewrite N2. pose proof (weight_le (s_type (set_token var s1))).
        split; [intros _|]; lia.
      * split; [eapply advanced_trans; [exact A1 | same_place]|].
        unfold mu. cbn [with_type s_next s_type].
        pose proof (weight_le TOK_ERROR). split; [intros _|]; lia.
    + set (s1 := advance 1 s).
      assert (advanced s s1) as A1.
      { apply advanced_advance. rewrite Hs. cbn. lia. }
      assert (String.length (s_next s1) < String.length (s_next s))%nat as L1.
      { unfold s1. cbn [advance s_next]. rewrite length_drop, Hs.
        cbn [String.length]. lia. }
      destruct (operator_next c s1) as [A2 N2].
      split; [eapply advanced_trans; eassumption|].
      unfold mu. rewrite N2. pose proof (weight_le (s_type (operator c s1))).
      split; [intros _|]; lia.
Qed.

Lemma next_token_loop_spec (fuel : nat) (s : state) :
  (String.length (s_next s) < fuel)%nat ->
  advanced s (next_token_loop fuel s) /\
  (mu (next_token_loop fuel s) <= String.length (s_next s))%nat.
Proof.
  revert s. induction fuel as [|fuel IH]; intros s Hfuel; [lia|].
  cbn [next_token_loop]. destruct (s_next s) as [|c r] eqn:Hs.
  - split; [same_place|]. unfold mu. cbn. rewrite Hs. cbn. lia.
  - destruct (scan_spec c r s Hs) as (A & Hnull & Hmu). rewrite Hs in Hnull, Hmu.
    destruct (s_type (scan c s) =? TOK_NULL) eqn:E.
    + apply Z.eqb_eq in E. specialize (Hnull E).
      destruct (IH (scan c s)) as [A' Hmu']; [cbn in *; lia|].
      split; [eapply advanced_trans; eassumption|]. cbn in *. lia.
    + split; assumption.
Qed.

(** [next_token] reads on in the input and leaves the heap alone; what is
    left to parse afterwards is no more than the input that was unread. *)
Lemma next_token_spec (s : state) :
  advanced s (next_token s) /\
  (mu (next_token s) <= String.length (s_next s))%nat.
Proof.
  unfold next_token.
  destruct (next_token_loop_spec (S (String.length (s_next s))) (with_type s TOK_NULL))
    as [A Hmu]; [cbn; lia|].
  split; [|exact Hmu].
  eapply advanced_trans; [apply (advanced_with_type s TOK_NULL) | exact A].
Qed.

End Tokens.

(* ================================================================== *)
(** * Types: what the masks read *)

Lemma mask_range (t : Z) : 0 <= TYPE_MASK t < 32.
Proof.
  unfold TYPE_MASK. split.
  - apply Z.land_nonneg. right. lia.
  - change 31 with (Z.ones 5). rewrite Z.land_ones by lia.
    apply Z.mod_pos_bound. reflexivity.
Qed.

Lemma ARITY_mask (t : Z) : ARITY t = ARITY (TYPE_MASK t).
Proof.
  unfold ARITY, TYPE_MASK. rewrite <- !Z.land_assoc. reflexivity.
Qed.

Lemma IS_CLOSURE_mask (t : Z) : IS_CLOSURE t = IS_CLOSURE (TYPE_MASK t).
Proof.
  unfold IS_CLOSURE, TYPE_MASK. rewrite <- !Z.land_assoc. reflexivity.
Qed.

Lemma mask_idem (t : Z) : TYPE_MASK (TYPE_MASK t) = TYPE_MASK t.
Proof. unfold TYPE_MASK. rewrite <- Z.land_assoc. reflexivity. Qed.

Lemma owned_mask (t : Z) : owned t = owned (TYPE_MASK t).
Proof. unfold owned. rewrite mask_idem. reflexivity. Qed.

(** The 32 values of a mask, one goal each. *)
Ltac each_mask m :=
  let R := fresh "R" in
  match goal with
  | Hm : 0 <= m < 32 |- _ => idtac
  end;
  assert (m = 0 \/ m = 1 \/ m = 2 \/ m = 3 \/ m = 4 \/ m = 5 \/ m = 6 \/ m = 7
          \/ m = 8 \/ m = 9 \/ m = 10 \/ m = 11 \/ m = 12 \/ m = 13 \/ m = 14
          \/ m = 15 \/ m = 16 \/ m = 17 \/ m = 18 \/ m = 19 \/ m = 20 \/ m = 21
          \/ m = 22 \/ m = 23 \/ m = 24 \/ m = 25 \/ m = 26 \/ m = 27 \/ m = 28
          \/ m = 29 \/ m = 30 \/ m = 31) as R by lia;
  repeat (destruct R as [R|R]; [subst m|]); [..|subst m].

(** A type the parser makes a function or closure node of: its mask is one
    of the sixteen callable kinds. *)
Definition callable (m : Z) : bool := (TE_FUNCTION0 <=? m) && (m <=? TE_CLOSURE7).

Lemma callable_facts (t : Z) :
  callable (TYPE_MASK t) = true ->
  0 <= ARITY t <= 7 /\
  (owned t <= Z.to_nat (ARITY t))%nat /\
  ((TE_FUNCTION1 <=? TYPE_MASK t) && (TYPE_MASK t <=? TE_FUNCTION7)
   || (TE_CLOSURE1 <=? TYPE_MASK t) && (TYPE_MASK t <=? TE_CLOSURE7) = true ->
   owned t = Z.to_nat (ARITY t)).
Proof.
  rewrite ARITY_mask, owned_mask. pose proof (mask_range t) as Hm.
  set (m := TYPE_MASK t) in *. clearbody m. intros Hc.
  each_mask m; try discriminate Hc; cbv; repeat split; try lia; try discriminate;
    intros; try reflexivity; discriminate.
Qed.

(* ================================================================== *)
(** * Blocks: what [te_free] releases *)

Definition slot_blocks (p : slot te_expr) : Z :=
  match p with
  | child c => te_blocks c
  | _ => 0
  end.

Lemma te_blocks_eq (type : Z) (u : te_union) (ps : list (slot te_expr)) :
  te_blocks (Node type u ps) = 1 + sum_first slot_blocks (owned type) ps.
Proof. reflexivity. Qed.

Lemma te_blocks_set_u (n : te_expr) (u : te_union) :
  te_blocks (set_u n u) = te_blocks n.
Proof. destruct n. reflexivity. Qed.

Definition is_raw (p : slot te_expr) : bool :=
  match p with
  | raw _ => true
  | _ => false
  end.

Lemma sum_first_raw (k : nat) (l : list (slot te_expr)) :
  forallb is_raw l = true -> sum_first slot_blocks k l = 0.
Proof.
  revert k. induction l as [|p l IH]; intros k Hl; destruct k; try reflexivity.
  cbn [forallb] in Hl. apply andb_prop in Hl as [Hp Hl].
  cbn [sum_first]. rewrite (IH k Hl). destruct p; try discriminate. reflexivity.
Qed.

(** Writing a slot that held no child: a child below the number of owned
    slots adds its blocks, any other write adds nothing. *)
Lemma sum_first_store (k i : nat) (l : list (slot te_expr)) (x : slot te_expr) :
  (i < List.length l)%nat -> slot_blocks (nth i l (raw null)) = 0 ->
  sum_first slot_blocks k (store l i x)
  = sum_first slot_blocks k l + (if (i <? k)%nat then slot_blocks x else 0).
Proof.
  revert k i. induction l as [|p l IH]; intros k i Hi Hp; [cbn in Hi; lia|].
  destruct i as [|i]; cbn [store].
  - destruct k as [|k]; cbn [sum_first Nat.ltb Nat.leb]; [lia|].
    cbn [nth] in Hp. lia.
  - destruct k as [|k]; cbn [sum_first]; [reflexivity|].
    cbn [List.length] in Hi. cbn [nth] in Hp.
    rewrite (IH k i) by (assumption || lia).
    change (S i <? S k)%nat with (i <? k)%nat. lia.
Qed.

Lemma length_store {A : Type} (l : list A) (i : nat) (x : A) :
  List.length (store l i x) = List.length l.
Proof.
  revert i. induction l as [|y l IH]; intros i; [reflexivity|].
  destruct i; cbn [store List.length]; [reflexivity | rewrite IH; reflexivity].
Qed.

Lemma nth_store_same {A : Type} (l : list A) (i : nat) (x d : A) :
  (i < List.length l)%nat -> nth i (store l i x) d = x.
Proof.
  revert i. induction l as [|y l IH]; intros i Hi; [cbn in Hi; lia|].
  destruct i; cbn [store nth]; [reflexivity|]. apply IH. cbn in Hi. lia.
Qed.

Lemma nth_store_other {A : Type} (l : list A) (i j : nat) (x d : A) :
  i <> j -> nth j (store l i x) d = nth j l d.
Proof.
  revert i j. induction l as [|y l IH]; intros i j Hij; [destruct i; reflexivity|].
  destruct i, j; cbn [store nth]; try reflexivity; try lia. apply IH. lia.
Qed.

(* ================================================================== *)
(** * Well-formed trees *)

Section AllFirst.
Context {A : Type}.
Variable f : A -> bool.
(** [f] holds of the first [k] elements, and there are that many. *)
Fixpoint all_first (k : nat) (l : list A) {struct l} : bool :=
  match l, k with
  | _, O => true
  | x :: l', S k' => f x && all_first k' l'
  | [], S _ => false
  end.
End AllFirst.

(** A tree as the parser builds it when it meets no error: a constant with
    its value, a variable, or a function or closure with a child in each of
    its [ARITY] slots. *)
Fixpoint wf (n : te_expr) : bool :=
  let 'Node type u ps := n in
  if type =? TE_CONSTANT then match u with Value _ => true | Ptr _ => false end
  else if type =? TE_VARIABLE then true
  else
    callable (TYPE_MASK type)
    && all_first (fun p => match p with child c => wf c | _ => false end)
         (Z.to_nat (ARITY type)) ps.

Definition slot_wf (p : slot te_expr) : bool :=
  match p with
  | child c => wf c
  | _ => false
  end.

Lemma wf_eq (type : Z) (u : te_union) (ps : list (slot te_expr)) :
  wf (Node type u ps)
  = if type =? TE_CONSTANT then match u with Value _ => true | Ptr _ => false end
    else if type =? TE_VARIABLE then true
    else callable (TYPE_MASK type) && all_first slot_wf (Z.to_nat (ARITY type)) ps.
Proof. reflexivity. Qed.

Lemma all_first_store {A : Type} (f : A -> bool) (k i : nat) (l : list A) (x : A) :
  (k <= i)%nat -> all_first f k (store l i x) = all_first f k l.
Proof.
  revert k i. induction l as [|y l IH]; intros k i Hk; [reflexivity|].
  destruct i as [|i]; cbn [store].
  - destruct k; [reflexivity | lia].
  - destruct k as [|k]; [reflexivity|]. cbn [all_first]. rewrite IH by lia.
    reflexivity.
Qed.

Lemma all_first_extend {A : Type} (f : A -> bool) (k : nat) (l : list A) (x : A) :
  (k < List.length l)%nat -> all_first f k l = true -> f x = true ->
  all_first f (S k) (store l k x) = true.
Proof.
  revert k. induction l as [|y l IH]; intros k Hk Hl Hx; [cbn in Hk; lia|].
  destruct k as [|k]; cbn [store all_first].
  - rewrite Hx. destruct l; reflexivity.
  - cbn [all_first] in Hl. apply andb_prop in Hl as [Hy Hl]. rewrite Hy.
    cbn [andb]. apply IH; [cbn in Hk; lia | assumption | assumption].
Qed.

(* ================================================================== *)
(** * The parser: what a routine leaves behind *)

Section Parser.
Context {H : Host}.
Variable malloc_ok : nat -> bool.

(** Every call of [malloc] from number [a] up to [b] succeeded. *)
Definition allocs_ok (a b : nat) : Prop :=
  forall k : nat, (a <= k < b)%nat -> malloc_ok k = true.

(** [s'] comes after [s] in a parse: the same bindings, further in the
    input, no more left to parse, no fewer calls of [malloc]. *)
Definition after (s s' : state) : Prop :=
  s_lookup s' = s_lookup s /\
  (exists k : nat, (k <= String.length (s_next s))%nat /\
     s_next s' = drop k (s_next s) /\ s_pos s' = s_pos s + Z.of_nat k) /\
  (mu s' <= mu s)%nat /\
  (heap_calls s <= heap_calls s')%nat.

Definition blocks_of (t : option te_expr) : Z :=
  match t with
  | Some n => te_blocks n
  | None => 0
  end.

(** What a parse routine that started in [s] and returned [t] in [s']
    guarantees: the blocks it holds on return are those of the tree it
    returns; a null tree means that the last call of [malloc] failed; a
    tree means that no call failed, and the tree is well formed unless the
    state is an error. *)
Definition parsed (s : state) (t : option te_expr) (s' : state) : Prop :=
  after s s' /\
  heap_live s' = heap_live s + blocks_of t /\
  match t with
  | Some n =>
      allocs_ok (heap_calls s) (heap_calls s') /\
      (s_type s' = TOK_ERROR \/ wf n = true)
  | None =>
      (heap_calls s < heap_calls s')%nat /\
      malloc_ok (pred (heap_calls s')) = false
  end.

Ltac here :=
  unfold after, mu; cbn;
  repeat split; try (exists O; repeat split; [lia | cbn; lia]); try lia.

Ltac heap :=
  cbn [te_free with_heap with_type with_u with_context advance heap_live
       heap_calls s_type s_next s_pos s_u s_context s_lookup blocks_of
       Nat.pred fst snd] in *.

Lemma after_refl (s : state) : after s s.
Proof. here. Qed.

Lemma after_trans (s1 s2 s3 : state) : after s1 s2 -> after s2 s3 -> after s1 s3.
Proof.
  intros (L1 & (k1 & B1 & N1 & P1) & M1 & C1) (L2 & (k2 & B2 & N2 & P2) & M2 & C2).
  repeat split; try congruence; try lia.
  exists (k1 + k2)%nat. rewrite N2, N1, drop_drop, P2, P1.
  rewrite N1, length_drop in B2. repeat split; lia.
Qed.

Lemma advanced_after (s s' : state) :
  advanced s s' -> (mu s' <= mu s)%nat -> after s s'.
Proof.
  intros (L & C & V & k & B & N & P) M. repeat split; try assumption; try lia.
  exists k. repeat split; assumption.
Qed.

Lemma mu_next_token (s : state) : (mu (next_token s) <= mu s - weight (s_type s))%nat.
Proof. destruct (next_token_spec s) as [_ M]. unfold mu at 2. lia. Qed.

Lemma after_next_token (s : state) : after s (next_token s).
Proof.
  destruct (next_token_spec s) as [A M]. apply advanced_after; [exact A|].
  unfold mu at 2. lia.
Qed.

Lemma heap_next_token (s : state) :
  heap_calls (next_token s) = heap_calls s /\ heap_live (next_token s) = heap_live s.
Proof. destruct (next_token_spec s) as [(_ & C & V & _) _]. split; assumption. Qed.

Lemma after_error (s : state) : after s (with_type s TOK_ERROR).
Proof. here. Qed.

Lemma after_te_free (n : te_expr) (s : state) : after s (te_free n s).
Proof. here. Qed.

Lemma allocs_ok_nil (a : nat) : allocs_ok a a.
Proof. intros k Hk. lia. Qed.

Lemma allocs_ok_trans (a b c : nat) :
  allocs_ok a b -> allocs_ok b c -> allocs_ok a c.
Proof.
  intros Hab Hbc k Hk. destruct (Nat.lt_ge_cases k b); [apply Hab | apply Hbc]; lia.
Qed.

(** [new_expr]: a fresh node with the copied parameters, or null. *)
Lemma new_expr_spec (type : Z) (ps : list (slot te_expr)) (s : state) :
  (malloc_ok (heap_calls s) = true /\
   new_expr malloc_ok type ps s
   = (Some (Node type (Ptr null)
              (memcpy (repeat (raw null)
                         (Z.to_nat (ARITY type)
                          + (if IS_CLOSURE type then 1 else 0))%nat)
                 ps (Z.to_nat (ARITY type)))),
      with_heap s (S (heap_calls s)) (heap_live s + 1)))
  \/ (malloc_ok (heap_calls s) = false /\
      new_expr malloc_ok type ps s
      = (None, with_heap s (S (heap_calls s)) (heap_live s))).
Proof.
  unfold new_expr. destruct (malloc_ok (heap_calls s));
    [left | right]; split; reflexivity.
Qed.

Lemma parsed_new_none (s : state) :
  malloc_ok (heap_calls s) = false ->
  parsed s None (with_heap s (S (heap_calls s)) (heap_live s)).
Proof. intros Hm. unfold parsed. cbn. repeat split; try here. exact Hm. Qed.

Lemma allocs_ok_one (s : state) :
  malloc_ok (heap_calls s) = true -> allocs_ok (heap_calls s) (S (heap_calls s)).
Proof. intros Hm k Hk. replace k with (heap_calls s) by lia. exact Hm. Qed.

Lemma forallb_repeat_raw (k : nat) :
  forallb is_raw (repeat (raw null : slot te_expr) k) = true.
Proof. induction k; [reflexivity | exact IHk]. Qed.

(** The same with [held] blocks in the hands of the routine on entry (the
    subtree a loop has built so far). *)
Definition holding (held : Z) (s : state) (t : option te_expr) (s' : state) : Prop :=
  after s s' /\
  heap_live s' + held = heap_live s + blocks_of t /\
  match t with
  | Some n =>
      allocs_ok (heap_calls s) (heap_calls s') /\
      (s_type s' = TOK_ERROR \/ wf n = true)
  | None =>
      (heap_calls s < heap_calls s')%nat /\
      malloc_ok (pred (heap_calls s')) = false
  end.

Lemma holding_parsed (s : state) (t : option te_expr) (s' : state) :
  holding 0 s t s' <-> parsed s t s'.
Proof.
  unfold holding, parsed. rewrite Z.add_0_r. reflexivity.
Qed.

(** A routine that parses, then goes on with the subtree in its hands. *)
Lemma parsed_holding (s s1 s' : state) (ret : te_expr) (t : option te_expr) :
  parsed s (Some ret) s1 -> holding (te_blocks ret) s1 t s' -> parsed s t s'.
Proof.
  intros (A1 & L1 & K1 & W1) (A2 & L2 & R2). cbn [blocks_of] in L1.
  split; [eapply after_trans; eassumption|]. split; [lia|].
  destruct A1 as (_ & _ & _ & C1). destruct A2 as (_ & _ & _ & C2).
  destruct t as [n|].
  - destruct R2 as [K2 W2]. split; [eapply allocs_ok_trans; eassumption | exact W2].
  - destruct R2 as [C3 F3]. split; [lia | exact F3].
Qed.

Lemma power_signs_spec (k : nat) (sign : Z) (s : state) :
  after s (snd (power_signs k sign s)) /\
  heap_calls (snd (power_signs k sign s)) = heap_calls s /\
  heap_live (snd (power_signs k sign s)) = heap_live s.
Proof.
  revert sign s. induction k as [|k IH]; intros sign s; cbn [power_signs].
  - destruct (_ && _); cbn [snd]; (split; [apply after_refl | split; reflexivity]).
  - destruct (_ && _); cbn [snd]; [|split; [apply after_refl | split; reflexivity]].
    destruct (IH (if is_fn (s_u s) fn_sub then - sign else sign) (next_token s))
      as (A & C & V).
    destruct (heap_next_token s) as [C' V'].
    split; [eapply after_trans; [apply after_next_token | exact A]|].
    split; congruence.
Qed.

Lemma callable_not_leaf (t : Z) :
  callable (TYPE_MASK t) = true -> (t =? TE_CONSTANT) = false /\ (t =? TE_VARIABLE) = false.
Proof.
  intros Hc. split; apply Z.eqb_neq; intros ->; discriminate Hc.
Qed.

Definition binary (u : te_union) (a b : te_expr) : te_expr :=
  Node (Z.lor TE_FUNCTION2 TE_FLAG_PURE) u [child a; child b].

Lemma new_binary (a b : te_expr) (s : state) :
  (malloc_ok (heap_calls s) = true /\
   new_expr malloc_ok (Z.lor TE_FUNCTION2 TE_FLAG_PURE) [child a; child b] s
   = (Some (binary (Ptr null) a b),
      with_heap s (S (heap_calls s)) (heap_live s + 1)))
  \/ (malloc_ok (heap_calls s) = false /\
      new_expr malloc_ok (Z.lor TE_FUNCTION2 TE_FLAG_PURE) [child a; child b] s
      = (None, with_heap s (S (heap_calls s)) (heap_live s))).
Proof. apply new_expr_spec. Qed.

Lemma te_blocks_binary (u : te_union) (a b : te_expr) :
  te_blocks (binary u a b) = 1 + te_blocks a + te_blocks b.
Proof.
  unfold binary. rewrite te_blocks_eq.
  change (owned (Z.lor TE_FUNCTION2 TE_FLAG_PURE)) with 2%nat.
  cbn [sum_first slot_blocks]. lia.
Qed.

Lemma wf_binary (u : te_union) (a b : te_expr) :
  wf (binary u a b) = wf a && wf b.
Proof.
  unfold binary. rewrite wf_eq.
  change (Z.to_nat (ARITY (Z.lor TE_FUNCTION2 TE_FLAG_PURE))) with 2%nat.
  cbn [all_first slot_wf]. rewrite andb_true_r. reflexivity.
Qed.

Lemma holding_stop (ret : te_expr) (s : state) :
  s_type s = TOK_ERROR \/ wf ret = true -> holding (te_blocks ret) s (Some ret) s.
Proof.
  intros Hret. split; [apply after_refl|]. split; [cbn [blocks_of]; lia|].
  split; [apply allocs_ok_nil | exact Hret].
Qed.

Section LoopSpec.
Variable sub : state -> res.
Variable op : state -> option pointer.
Hypothesis Hsub : forall s t s', sub s = Some (t, s') -> parsed s t s'.
Hypothesis Hop : forall s f, op s = Some f -> s_type s <> TOK_ERROR.

Lemma infix_loop_spec (k : nat) (ret : te_expr) (s : state)
  (t : option te_expr) (s' : state) :
  s_type s = TOK_ERROR \/ wf ret = true ->
  infix_loop malloc_ok sub op k ret s = Some (t, s') ->
  holding (te_blocks ret) s t s'.
Proof.
  revert ret s. induction k as [|k IH]; intros ret s Hret; cbn [infix_loop].
  - destruct (op s); [discriminate|]. intros [= <- <-].
    apply holding_stop, Hret.
  - destruct (op s) as [f|] eqn:Eop.
    2:{ intros [= <- <-]. apply holding_stop, Hret. }
    assert (wf ret = true) as Wret.
    { destruct Hret as [E|W]; [|exact W]. destruct (Hop s f Eop E). }
    pose proof (after_next_token s) as A0.
    destruct (heap_next_token s) as [C0 V0].
    destruct (sub (next_token s)) as [[[p|] s2]|] eqn:Esub; [| |discriminate].
    + destruct (Hsub _ _ _ Esub) as (A1 & L1 & K1 & W1). cbn [blocks_of] in L1.
      destruct (new_binary ret p s2) as [[Hm E]|[Hm E]]; rewrite E.
      * intros Hloop. apply IH in Hloop.
        -- destruct Hloop as (A2 & L2 & R2).
           change (set_u (binary (Ptr null) ret p) (Ptr f))
             with (binary (Ptr f) ret p) in L2.
           rewrite te_blocks_binary in L2. cbn [with_heap heap_live] in L2.
           split; [eapply after_trans; [exact A0|];
                   eapply after_trans; [exact A1|];
                   eapply after_trans; [|exact A2]; here|].
           split; [lia|].
           destruct A1 as (_ & _ & _ & C1). destruct A2 as (_ & _ & _ & C2).
           cbn in C2.
           destruct t as [n|].
           ++ destruct R2 as [K2 W2]. split; [|exact W2].
              intros j Hj. destruct (Nat.lt_ge_cases j (heap_calls s2)) as [L|L].
              ** apply K1. lia.
              ** destruct (Nat.eq_dec j (heap_calls s2)) as [->|Hne];
                   [exact Hm | apply K2; cbn; lia].
           ++ destruct R2 as [C3 F3]. cbn in C3. split; [lia | exact F3].
        -- destruct W1 as [E1|W1]; [left; exact E1|]. right.
           change (set_u (binary (Ptr null) ret p) (Ptr f))
             with (binary (Ptr f) ret p).
           rewrite wf_binary, Wret, W1. reflexivity.
      * intros [= <- <-].
        split; [eapply after_trans; [exact A0|];
                eapply after_trans; [exact A1|]; here|].
        destruct A1 as (_ & _ & _ & C1). heap.
        split; [lia|]. split; [lia | exact Hm].
    + destruct (Hsub _ _ _ Esub) as (A1 & L1 & C1 & F1). cbn [blocks_of] in L1.
      intros [= <- <-].
      split; [eapply after_trans; [exact A0|];
              eapply after_trans; [exact A1|]; here|].
      heap. split; [lia|]. split; [lia | exact F1].
Qed.

End LoopSpec.

(** [new_expr(type, 0)]: every slot is null. *)
Lemma new_leaf (type : Z) (s : state) :
  (malloc_ok (heap_calls s) = true /\
   new_expr malloc_ok type [] s
   = (Some (Node type (Ptr null)
              (repeat (raw null)
                 (Z.to_nat (ARITY type) + (if IS_CLOSURE type then 1 else 0))%nat)),
      with_heap s (S (heap_calls s)) (heap_live s + 1)))
  \/ (malloc_ok (heap_calls s) = false /\
      new_expr malloc_ok type [] s
      = (None, with_heap s (S (heap_calls s)) (heap_live s))).
Proof.
  destruct (new_expr_spec type [] s) as [[Hm E]|[Hm E]]; [left | right];
    (split; [exact Hm|]); rewrite E; [|reflexivity].
  unfold memcpy. rewrite firstn_nil. reflexivity.
Qed.

Lemma forallb_store_raw (l : list (slot te_expr)) (i : nat) (p : pointer) :
  forallb is_raw l = true -> forallb is_raw (store l i (raw p)) = true.
Proof.
  revert i. induction l as [|x l IH]; intros i Hl; [reflexivity|].
  cbn [forallb] in Hl. apply andb_prop in Hl as [Hx Hl].
  destruct i; cbn [store forallb]; [exact Hl | rewrite Hx; apply IH, Hl].
Qed.

(** The node of a function or closure token before its arguments: only
    null pointers and the context in its slots. *)
Lemma callee_leaf (i type : Z) (k : nat) (s : state) :
  exists ps, callee i (Node type (Ptr null) (repeat (raw null) k)) s
             = Node type (Ptr (ptr_of (s_u s))) ps
    /\ forallb is_raw ps = true /\ List.length ps = k.
Proof.
  unfold callee. cbn [set_u]. destruct (IS_CLOSURE (s_type s)); cbn [set_param].
  - eexists. split; [reflexivity|].
    split; [apply forallb_store_raw, forallb_repeat_raw|].
    rewrite length_store. apply repeat_length.
  - eexists. split; [reflexivity|].
    split; [apply forallb_repeat_raw | apply repeat_length].
Qed.

Lemma raw_nth (ps : list (slot te_expr)) (j : nat) :
  forallb is_raw ps = true -> slot_blocks (nth j ps (raw null)) = 0.
Proof.
  revert j. induction ps as [|p ps IH]; intros j Hps; [destruct j; reflexivity|].
  cbn [forallb] in Hps. apply andb_prop in Hps as [Hp Hps].
  destruct j; cbn [nth]; [destruct p; try discriminate; reflexivity | apply IH, Hps].
Qed.

Lemma te_blocks_raw (type : Z) (u : te_union) (ps : list (slot te_expr)) :
  forallb is_raw ps = true -> te_blocks (Node type u ps) = 1.
Proof. intros Hps. rewrite te_blocks_eq, sum_first_raw by exact Hps. reflexivity. Qed.

(** Reading on before a routine starts changes nothing to what it
    guarantees. *)
Lemma parsed_pre (s s1 s' : state) (t : option te_expr) :
  after s s1 -> heap_calls s1 = heap_calls s -> heap_live s1 = heap_live s ->
  parsed s1 t s' -> parsed s t s'.
Proof.
  intros A C V (A1 & L1 & R1).
  split; [eapply after_trans; eassumption|]. rewrite <- V, <- C.
  split; assumption.
Qed.

(** A tree in hand, and the state moved on without touching the heap. *)
Lemma parsed_post (s s1 s' : state) (n : te_expr) :
  parsed s (Some n) s1 -> after s1 s' ->
  heap_calls s' = heap_calls s1 -> heap_live s' = heap_live s1 ->
  s_type s' = TOK_ERROR \/ wf n = true ->
  parsed s (Some n) s'.
Proof.
  intros (A1 & L1 & K1 & _) A C V W.
  split; [eapply after_trans; eassumption|]. rewrite V, C.
  repeat split; assumption.
Qed.

(** A fresh node of one block, in the state after the allocation. *)
Lemma parsed_fresh (s : state) (n : te_expr) :
  malloc_ok (heap_calls s) = true -> te_blocks n = 1 ->
  s_type s = TOK_ERROR \/ wf n = true ->
  parsed s (Some n) (with_heap s (S (heap_calls s)) (heap_live s + 1)).
Proof.
  intros Hm Hb W. split; [here|]. heap. split; [lia|].
  split; [apply allocs_ok_one, Hm | exact W].
Qed.

Section ArgsSpec.
Variable sub : state -> res.
Hypothesis Hsub : forall s t s', sub s = Some (t, s') -> parsed s t s'.
Variable type : Z.
Variable u : te_union.

Lemma base_args_spec (k i : nat) (ps : list (slot te_expr)) (s : state)
  (r : option (te_expr * Z)) (s' : state) :
  (i + k = owned type)%nat -> (owned type <= List.length ps)%nat ->
  (forall j, (i <= j)%nat -> slot_blocks (nth j ps (raw null)) = 0) ->
  all_first slot_wf i ps = true ->
  base_args sub k (Z.of_nat i) (Node type u ps) s = Some (r, s') ->
  after s s' /\
  match r with
  | Some (ret, i') =>
      exists ps', ret = Node type u ps' /\
        heap_live s' + te_blocks (Node type u ps) = heap_live s + te_blocks ret /\
        allocs_ok (heap_calls s) (heap_calls s') /\
        (i' = Z.of_nat (owned type) - 1 ->
         s_type s' = TOK_ERROR \/ all_first slot_wf (owned type) ps' = true)
  | None =>
      heap_live s' + te_blocks (Node type u ps) = heap_live s /\
      (heap_calls s < heap_calls s')%nat /\
      malloc_ok (pred (heap_calls s')) = false
  end.
Proof.
  revert i ps s. induction k as [|k IH]; intros i ps s Hik Hlen Hraw Hwf;
    cbn [base_args].
  - intros [= <- <-]. split; [apply after_refl|]. exists ps.
    split; [reflexivity|]. split; [lia|]. split; [apply allocs_ok_nil|]. lia.
  - pose proof (after_next_token s) as A0.
    destruct (heap_next_token s) as [C0 V0].
    destruct (sub (next_token s)) as [[[x|] s2]|] eqn:Esub; [| |discriminate].
    + destruct (Hsub _ _ _ Esub) as (A1 & L1 & K1 & W1). cbn [blocks_of] in L1.
      cbn [set_param]. rewrite Nat2Z.id.
      assert (te_blocks (Node type u (store ps i (child x)))
              = te_blocks (Node type u ps) + te_blocks x) as Hb.
      { rewrite !te_blocks_eq, sum_first_store by (try apply Hraw; lia).
        assert ((i <? owned type)%nat = true) as -> by (apply Nat.ltb_lt; lia).
        cbn [slot_blocks]. lia. }
      assert (wf x = true -> all_first slot_wf (S i) (store ps i (child x)) = true)
        as Hext.
      { intros Wx. apply all_first_extend; [lia | exact Hwf | exact Wx]. }
      destruct (negb (s_type s2 =? TOK_SEP)) eqn:Esep.
      * intros [= <- <-]. split; [eapply after_trans; eassumption|].
        eexists. split; [reflexivity|]. split; [lia|].
        split; [rewrite <- C0; exact K1|].
        intros Hi. destruct W1 as [E1|W1]; [left; exact E1 | right].
        replace (owned type) with (S i) by lia. apply Hext, W1.
      * apply negb_false_iff, Z.eqb_eq in Esep.
        assert (wf x = true) as Wx.
        { destruct W1 as [E1|W1]; [|exact W1]. rewrite Esep in E1. discriminate E1. }
        replace (Z.of_nat i + 1) with (Z.of_nat (S i)) by lia.
        intros Hrec. apply IH in Hrec; [|lia|rewrite length_store; lia| |apply Hext, Wx].
        2:{ intros j Hj. rewrite nth_store_other by lia. apply Hraw. lia. }
        destruct Hrec as [A2 R2].
        split; [eapply after_trans; [exact A0|];
                eapply after_trans; eassumption|].
        destruct A1 as (_ & _ & _ & C1). destruct A2 as (_ & _ & _ & C2).
        destruct r as [[ret i']|].
        -- destruct R2 as (ps' & -> & L2 & K2 & W2). exists ps'.
           split; [reflexivity|]. split; [lia|].
           split; [|exact W2].
           rewrite <- C0. eapply allocs_ok_trans; eassumption.
        -- destruct R2 as (L2 & C3 & F3). split; [lia|]. split; [lia | exact F3].
    + destruct (Hsub _ _ _ Esub) as (A1 & L1 & C1 & F1). cbn [blocks_of] in L1.
      intros [= <- <-].
      split; [eapply after_trans; [exact A0|];
              eapply after_trans; [exact A1|]; here|].
      heap. split; [lia|]. split; [lia | exact F1].
Qed.

End ArgsSpec.

(** [s'] comes after [s] and the heap is as it was. *)
Definition quiet (s s' : state) : Prop :=
  after s s' /\ heap_calls s' = heap_calls s /\ heap_live s' = heap_live s.

Lemma quiet_refl (s : state) : quiet s s.
Proof. split; [apply after_refl | split; reflexivity]. Qed.

Lemma quiet_next (s s1 : state) : quiet s s1 -> quiet s (next_token s1).
Proof.
  intros (A & C & V). destruct (heap_next_token s1) as [C' V'].
  split; [eapply after_trans; [exact A | apply after_next_token]|].
  split; congruence.
Qed.

Lemma quiet_error (s s1 : state) : quiet s s1 -> quiet s (with_type s1 TOK_ERROR).
Proof.
  intros (A & C & V).
  split; [eapply after_trans; [exact A | apply after_error]|].
  split; assumption.
Qed.

Lemma quiet_signs (k : nat) (sign : Z) (s : state) :
  quiet s (snd (power_signs k sign s)).
Proof. apply power_signs_spec. Qed.

Lemma parsed_quiet_pre (s s1 s' : state) (t : option te_expr) :
  quiet s s1 -> parsed s1 t s' -> parsed s t s'.
Proof. intros (A & C & V). apply (parsed_pre s s1); assumption. Qed.

Lemma parsed_quiet_post (s s1 s' : state) (n : te_expr) :
  parsed s (Some n) s1 -> quiet s1 s' ->
  s_type s' = TOK_ERROR \/ wf n = true ->
  parsed s (Some n) s'.
Proof. intros P (A & C & V). apply (parsed_post s s1); assumption. Qed.

(** A fresh node of one block, and the state moved on. *)
Lemma parsed_node (s s' : state) (n : te_expr) :
  malloc_ok (heap_calls s) = true -> te_blocks n = 1 ->
  quiet (with_heap s (S (heap_calls s)) (heap_live s + 1)) s' ->
  s_type s' = TOK_ERROR \/ wf n = true ->
  parsed s (Some n) s'.
Proof.
  intros Hm Hb (A & C & V) W. heap.
  split; [eapply after_trans; [|exact A]; here|]. rewrite V, C. heap.
  split; [lia|]. split; [apply allocs_ok_one, Hm | exact W].
Qed.

Lemma all_first_0 {A : Type} (f : A -> bool) (l : list A) : all_first f 0 l = true.
Proof. destruct l; reflexivity. Qed.

Lemma op_pow_not_error (s : state) (f : pointer) :
  op_pow s = Some f -> s_type s <> TOK_ERROR.
Proof.
  unfold op_pow. destruct (s_type s =? TOK_INFIX) eqn:E; [|discriminate].
  apply Z.eqb_eq in E. rewrite E. intros _. discriminate.
Qed.

Lemma op_mul_not_error (s : state) (f : pointer) :
  op_mul s = Some f -> s_type s <> TOK_ERROR.
Proof.
  unfold op_mul. destruct (s_type s =? TOK_INFIX) eqn:E; [|discriminate].
  apply Z.eqb_eq in E. rewrite E. intros _. discriminate.
Qed.

Lemma op_add_not_error (s : state) (f : pointer) :
  op_add s = Some f -> s_type s <> TOK_ERROR.
Proof.
  unfold op_add. destruct (s_type s =? TOK_INFIX) eqn:E; [|discriminate].
  apply Z.eqb_eq in E. rewrite E. intros _. discriminate.
Qed.

Lemma op_comma_not_error (s : state) (f : pointer) :
  op_comma s = Some f -> s_type s <> TOK_ERROR.
Proof.
  unfold op_comma. destruct (s_type s =? TOK_SEP) eqn:E; [|discriminate].
  apply Z.eqb_eq in E. rewrite E. intros _. discriminate.
Qed.

(** A routine made of the routine below it and the loop over its
    operators. *)
Lemma level_parsed (sub : state -> res) (op : state -> option pointer)
  (s : state) (t : option te_expr) (s' : state) :
  (forall s t s', sub s = Some (t, s') -> parsed s t s') ->
  (forall s f, op s = Some f -> s_type s <> TOK_ERROR) ->
  level malloc_ok sub op s = Some (t, s') ->
  parsed s t s'.
Proof.
  intros Hsub Hop. unfold level. destruct (sub s) as [[[ret|] s1]|] eqn:E; [| |discriminate].
  - intros Hloop. pose proof (Hsub _ _ _ E) as P.
    eapply parsed_holding; [exact P|].
    eapply infix_loop_spec; [exact Hsub | exact Hop | | exact Hloop].
    destruct P as (_ & _ & _ & W). exact W.
  - intros [= <- <-]. apply (Hsub _ _ _ E).
Qed.

Definition unary (u : te_union) (a : te_expr) : te_expr :=
  Node (Z.lor TE_FUNCTION1 TE_FLAG_PURE) u [child a].

Lemma new_unary (a : te_expr) (s : state) :
  (malloc_ok (heap_calls s) = true /\
   new_expr malloc_ok (Z.lor TE_FUNCTION1 TE_FLAG_PURE) [child a] s
   = (Some (unary (Ptr null) a),
      with_heap s (S (heap_calls s)) (heap_live s + 1)))
  \/ (malloc_ok (heap_calls s) = false /\
      new_expr malloc_ok (Z.lor TE_FUNCTION1 TE_FLAG_PURE) [child a] s
      = (None, with_heap s (S (heap_calls s)) (heap_live s))).
Proof. apply new_expr_spec. Qed.

Lemma te_blocks_unary (u : te_union) (a : te_expr) :
  te_blocks (unary u a) = 1 + te_blocks a.
Proof.
  unfold unary. rewrite te_blocks_eq.
  change (owned (Z.lor TE_FUNCTION1 TE_FLAG_PURE)) with 1%nat.
  cbn [sum_first slot_blocks]. lia.
Qed.

Lemma wf_unary (u : te_union) (a : te_expr) : wf (unary u a) = wf a.
Proof.
  unfold unary. rewrite wf_eq.
  change (Z.to_nat (ARITY (Z.lor TE_FUNCTION1 TE_FLAG_PURE))) with 1%nat.
  cbn [all_first slot_wf]. rewrite andb_true_r. reflexivity.
Qed.

Lemma power_parsed (base : state -> res) :
  (forall s t s', base s = Some (t, s') -> parsed s t s') ->
  forall s t s', power_body malloc_ok base s = Some (t, s') -> parsed s t s'.
Proof.
  intros Hb s t s'. unfold power_body, negation.
  pose proof (quiet_signs (turns s) 1 s) as Q.
  destruct (power_signs (turns s) 1 s) as [sign s1]. cbn [snd] in Q.
  destruct (sign =? 1).
  - intros E. eapply parsed_quiet_pre; [exact Q | apply Hb, E].
  - destruct (base s1) as [[[b|] s2]|] eqn:E; [| |discriminate].
    + pose proof (Hb _ _ _ E) as (A1 & L1 & K1 & W1). cbn [blocks_of] in L1.
      destruct (new_unary b s2) as [[Hm En]|[Hm En]]; rewrite En;
        intros [= <- <-]; eapply parsed_quiet_pre; try exact Q.
      * split; [eapply after_trans; [exact A1|]; here|]. heap.
        change (Node 41 (Ptr (ptr_fun fn_negate)) [child b])
          with (unary (Ptr (ptr_fun fn_negate)) b).
        rewrite te_blocks_unary, wf_unary. split; [lia|].
        split; [|exact W1].
        eapply allocs_ok_trans; [exact K1 | apply allocs_ok_one, Hm].
      * split; [eapply after_trans; [exact A1|]; here|].
        destruct A1 as (_ & _ & _ & C1). heap.
        split; [lia|]. split; [lia | exact Hm].
    + intros [= <- <-]. eapply parsed_quiet_pre; [exact Q | apply Hb, E].
Qed.

Lemma wf_node (type : Z) (u : te_union) (ps : list (slot te_expr)) :
  callable (TYPE_MASK type) = true ->
  all_first slot_wf (Z.to_nat (ARITY type)) ps = true ->
  wf (Node type u ps) = true.
Proof.
  intros Hc Ha. rewrite wf_eq. destruct (callable_not_leaf type Hc) as [-> ->].
  rewrite Hc, Ha. reflexivity.
Qed.

Lemma leaf_type_facts (t : Z) :
  (TYPE_MASK t =? TE_FUNCTION0) || (TYPE_MASK t =? TE_CLOSURE0) = true ->
  callable (TYPE_MASK t) = true /\ ARITY t = 0.
Proof.
  rewrite ARITY_mask. pose proof (mask_range t) as Hm.
  set (m := TYPE_MASK t) in *. clearbody m. intros E.
  each_mask m; try discriminate E; split; reflexivity.
Qed.

Lemma unary_type_facts (t : Z) :
  (TYPE_MASK t =? TE_FUNCTION1) || (TYPE_MASK t =? TE_CLOSURE1) = true ->
  callable (TYPE_MASK t) = true /\ ARITY t = 1 /\ owned t = 1%nat.
Proof.
  rewrite ARITY_mask, owned_mask. pose proof (mask_range t) as Hm.
  set (m := TYPE_MASK t) in *. clearbody m. intros E.
  each_mask m; try discriminate E; repeat split; reflexivity.
Qed.

Lemma nary_type_facts (t : Z) :
  (TE_FUNCTION2 <=? TYPE_MASK t) && (TYPE_MASK t <=? TE_FUNCTION7)
  || (TE_CLOSURE2 <=? TYPE_MASK t) && (TYPE_MASK t <=? TE_CLOSURE7) = true ->
  callable (TYPE_MASK t) = true /\ 2 <= ARITY t <= 7 /\
  owned t = Z.to_nat (ARITY t).
Proof.
  rewrite ARITY_mask, owned_mask. pose proof (mask_range t) as Hm.
  set (m := TYPE_MASK t) in *. clearbody m. intros E.
  each_mask m; try discriminate E; repeat split; try reflexivity; cbv; discriminate.
Qed.

Ltac callee_node ps Ec Hraw Hlen :=
  match goal with
  | |- context [callee ?i (Node ?ty _ (repeat _ ?k)) ?s1] =>
      destruct (callee_leaf i ty k s1) as (ps & Ec & Hraw & Hlen); rewrite Ec
  end.

Lemma base_parsed (power expr list_ : state -> res) :
  (forall s t s', power s = Some (t, s') -> parsed s t s') ->
  (forall s t s', expr s = Some (t, s') -> parsed s t s') ->
  (forall s t s', list_ s = Some (t, s') -> parsed s t s') ->
  forall s t s',
    base_body malloc_ok power expr list_ s = Some (t, s') -> parsed s t s'.
Proof.
  intros Hp He Hl s t s'. unfold base_body.
  destruct (TYPE_MASK (s_type s) =? TOK_NUMBER).
  { destruct (new_leaf TE_CONSTANT s) as [[Hok E]|[Hok E]]; rewrite E;
      intros [= <- <-]; [|apply parsed_new_none, Hok].
    apply parsed_node;
      [exact Hok | reflexivity
       | apply quiet_next, quiet_refl | right; reflexivity]. }
  destruct (TYPE_MASK (s_type s) =? TOK_VARIABLE).
  { destruct (new_leaf TE_VARIABLE s) as [[Hok E]|[Hok E]]; rewrite E;
      intros [= <- <-]; [|apply parsed_new_none, Hok].
    apply parsed_node;
      [exact Hok | reflexivity
       | apply quiet_next, quiet_refl | right; reflexivity]. }
  destruct ((TYPE_MASK (s_type s) =? TE_FUNCTION0)
            || (TYPE_MASK (s_type s) =? TE_CLOSURE0)) eqn:E0.
  { destruct (leaf_type_facts _ E0) as [Hc Ha].
    destruct (new_leaf (s_type s) s) as [[Hok E]|[Hok E]]; rewrite E;
      [|intros [= <- <-]; apply parsed_new_none, Hok].
    cbv zeta. callee_node ps Ec Hraw Hlen.
    assert (wf (Node (s_type s) (Ptr (ptr_of
              (s_u (with_heap s (S (heap_calls s)) (heap_live s + 1))))) ps) = true)
      as W.
    { apply wf_node; [exact Hc|]. rewrite Ha. apply all_first_0. }
    destruct (s_type (next_token _) =? TOK_OPEN);
      [destruct (negb (s_type (next_token (next_token _)) =? TOK_CLOSE))|];
      intros [= <- <-];
      (apply parsed_node;
       [exact Hok | apply te_blocks_raw, Hraw | | right; exact W]).
    - apply quiet_error, quiet_next, quiet_next, quiet_refl.
    - apply quiet_next, quiet_next, quiet_next, quiet_refl.
    - apply quiet_next, quiet_refl. }
  destruct ((TYPE_MASK (s_type s) =? TE_FUNCTION1)
            || (TYPE_MASK (s_type s) =? TE_CLOSURE1)) eqn:E1.
  { destruct (unary_type_facts _ E1) as (Hc & Ha & Ho).
    destruct (new_leaf (s_type s) s) as [[Hok E]|[Hok E]]; rewrite E;
      [|intros [= <- <-]; apply parsed_new_none, Hok].
    cbv zeta. callee_node ps Ec Hraw Hlen.
    set (s1 := with_heap s (S (heap_calls s)) (heap_live s + 1)) in *.
    assert (1 <= List.length ps)%nat as Hps.
    { rewrite Hlen, Ha. change (Z.to_nat 1) with 1%nat. lia. }
    destruct (power (next_token s1)) as [[[p|] s2]|] eqn:Ep; [| |discriminate];
      intros [= <- <-]; destruct (Hp _ _ _ Ep) as (A1 & L1 & R1);
      destruct (heap_next_token s1) as [C0 V0];
      pose proof (after_next_token s1) as A0.
    - destruct R1 as [K1 W1]. cbn [set_param blocks_of] in *.
      change (Z.to_nat 0) with O.
      split; [eapply after_trans; [|eapply after_trans; eassumption];
              unfold s1; here|].
      split; [|split].
      + cbn [blocks_of].
        rewrite te_blocks_eq, sum_first_store, Ho
          by first [apply raw_nth; exact Hraw | lia].
        rewrite sum_first_raw by exact Hraw. cbn [Nat.ltb Nat.leb slot_blocks].
        unfold s1 in *. heap. lia.
      + intros j Hj. unfold s1 in *. heap.
        destruct (Nat.eq_dec j (heap_calls s)) as [->|Hne]; [exact Hok|].
        apply K1. lia.
      + destruct W1 as [E'|W1]; [left; exact E' | right].
        apply wf_node; [exact Hc|]. rewrite Ha. change (Z.to_nat 1) with 1%nat.
        apply all_first_extend; [lia | apply all_first_0 | exact W1].
    - destruct R1 as [C1 F1]. cbn [blocks_of] in *.
      split; [eapply after_trans; [|eapply after_trans;
                [exact A0 | eapply after_trans; [exact A1|]]];
              unfold s1; here|].
      unfold s1 in *. heap. rewrite (te_blocks_raw _ _ _ Hraw).
      split; [lia|]. split; [lia | exact F1]. }
  destruct ((TE_FUNCTION2 <=? TYPE_MASK (s_type s))
            && (TYPE_MASK (s_type s) <=? TE_FUNCTION7)
            || (TE_CLOSURE2 <=? TYPE_MASK (s_type s))
               && (TYPE_MASK (s_type s) <=? TE_CLOSURE7)) eqn:E2.
  { destruct (nary_type_facts _ E2) as (Hc & Ha & Ho).
    destruct (new_leaf (s_type s) s) as [[Hok E]|[Hok E]]; rewrite E;
      [|intros [= <- <-]; apply parsed_new_none, Hok].
    cbv zeta. callee_node ps Ec Hraw Hlen.
    set (s1 := with_heap s (S (heap_calls s)) (heap_live s + 1)) in *.
    set (u := Ptr (ptr_of (s_u s1))) in *.
    destruct (negb (s_type (next_token s1) =? TOK_OPEN)).
    { intros [= <- <-].
      apply parsed_node;
        [exact Hok | apply te_blocks_raw, Hraw
         | apply quiet_error, quiet_next, quiet_refl | left; reflexivity]. }
    destruct (base_args expr (Z.to_nat (ARITY (s_type s))) 0 (Node (s_type s) u ps)
                (next_token s1)) as [[r s3]|] eqn:Eargs; [|discriminate].
    change 0 with (Z.of_nat 0) in Eargs.
    apply (base_args_spec expr He) in Eargs;
      [|lia|lia|intros; apply raw_nth, Hraw|apply all_first_0].
    destruct Eargs as [A1 R1].
    pose proof (after_next_token s1) as A0.
    destruct (heap_next_token s1) as [C0 V0].
    assert (after s (next_token s1)) as A.
    { eapply after_trans; [|exact A0]. unfold s1. here. }
    rewrite (te_blocks_raw _ _ _ Hraw) in R1.
    destruct r as [[ret i]|].
    - destruct R1 as (ps' & -> & L1 & K1 & W1).
      assert (allocs_ok (heap_calls s) (heap_calls s3)) as K.
      { intros j Hj. unfold s1 in *. heap.
        destruct (Nat.eq_dec j (heap_calls s)) as [->|Hne]; [exact Hok|].
        apply K1. lia. }
      destruct (negb (s_type s3 =? TOK_CLOSE) || negb (i =? ARITY (s_type s) - 1))
        eqn:Ecl; intros [= <- <-].
      + split; [eapply after_trans; [exact A|];
                eapply after_trans; [exact A1 | apply after_error]|].
        unfold s1 in *. heap. split; [lia|]. split; [exact K | left; reflexivity].
      + apply orb_false_iff in Ecl as [Ecl Ei].
        apply negb_false_iff, Z.eqb_eq in Ecl, Ei.
        destruct (heap_next_token s3) as [C3 V3].
        split; [eapply after_trans; [exact A|];
                eapply after_trans; [exact A1 | apply after_next_token]|].
        rewrite V3, C3. unfold s1 in *. heap. split; [lia|]. split; [exact K|].
        right. apply wf_node; [exact Hc|]. rewrite <- Ho.
        destruct W1 as [E'|W1]; [lia| |exact W1].
        rewrite Ecl in E'. discriminate E'.
    - destruct R1 as (L1 & C1 & F1). intros [= <- <-].
      split; [eapply after_trans; eassumption|].
      unfold s1 in *. heap. split; [lia|]. split; [lia | exact F1]. }
  destruct (TYPE_MASK (s_type s) =? TOK_OPEN).
  { destruct (list_ (next_token s)) as [[[ret|] s1]|] eqn:El; [| |discriminate].
    - pose proof (Hl _ _ _ El) as P.
      assert (parsed s (Some ret) s1) as P'.
      { eapply parsed_quiet_pre; [apply quiet_next, quiet_refl | exact P]. }
      destruct (negb (s_type s1 =? TOK_CLOSE)) eqn:Ecl; intros [= <- <-].
      + eapply parsed_quiet_post;
          [exact P' | apply quiet_error, quiet_refl | left; reflexivity].
      + apply negb_false_iff, Z.eqb_eq in Ecl.
        eapply parsed_quiet_post; [exact P' | apply quiet_next, quiet_refl|].
        right. destruct P as (_ & _ & _ & [E'|W]); [|exact W].
        rewrite Ecl in E'. discriminate E'.
    - intros [= <- <-].
      eapply parsed_quiet_pre; [apply quiet_next, quiet_refl | apply Hl, El]. }
  destruct (new_leaf 0 s) as [[Hok E]|[Hok E]]; rewrite E;
    intros [= <- <-]; [|apply parsed_new_none, Hok].
  apply parsed_node;
    [exact Hok | reflexivity
     | apply quiet_error, quiet_refl | left; reflexivity].
Qed.

Ltac six := split; [|split; [|split; [|split; [|split]]]].

(** Every routine, at every depth, leaves what [parsed] says. *)
Lemma routines_parsed (n : nat) :
  (forall s t s', base malloc_ok n s = Some (t, s') -> parsed s t s') /\
  (forall s t s', power malloc_ok n s = Some (t, s') -> parsed s t s') /\
  (forall s t s', factor malloc_ok n s = Some (t, s') -> parsed s t s') /\
  (forall s t s', term malloc_ok n s = Some (t, s') -> parsed s t s') /\
  (forall s t s', expr malloc_ok n s = Some (t, s') -> parsed s t s') /\
  (forall s t s', list_ malloc_ok n s = Some (t, s') -> parsed s t s').
Proof.
  induction n as [|n (Hb & Hp & Hf & Ht & He & Hl)].
  - six; intros s t s' E; discriminate E.
  - six; intros s t s'.
    + apply (base_parsed (power malloc_ok n) (expr malloc_ok n) (list_ malloc_ok n));
        assumption.
    + apply (power_parsed (base malloc_ok n)); assumption.
    + apply (level_parsed (power malloc_ok n) op_pow);
        [assumption | apply op_pow_not_error].
    + apply (level_parsed (factor malloc_ok n) op_mul);
        [assumption | apply op_mul_not_error].
    + apply (level_parsed (term malloc_ok n) op_add);
        [assumption | apply op_add_not_error].
    + apply (level_parsed (expr malloc_ok n) op_comma);
        [assumption | apply op_comma_not_error].
Qed.

(* ================================================================== *)
(** * The parser: the depth it needs *)

Lemma parsed_mu (s : state) (t : option te_expr) (s' : state) :
  parsed s t s' -> (mu s' <= mu s)%nat.
Proof. intros ((_ & _ & M & _) & _). exact M. Qed.

Lemma weight_callable (t : Z) :
  callable (TYPE_MASK t) = true \/ TYPE_MASK t = TOK_OPEN -> weight t = 1%nat.
Proof.
  intros Hc. unfold weight.
  destruct (Z.eqb_spec t TOK_END) as [->|_];
    [destruct Hc as [Hc|Hc]; discriminate Hc|].
  destruct (Z.eqb_spec t TOK_ERROR) as [->|_];
    [destruct Hc as [Hc|Hc]; discriminate Hc|].
  destruct (Z.eqb_spec t TOK_CLOSE) as [->|_];
    [destruct Hc as [Hc|Hc]; discriminate Hc|].
  destruct (Z.eqb_spec t TOK_NUMBER) as [->|_];
    [destruct Hc as [Hc|Hc]; discriminate Hc|].
  destruct (Z.eqb_spec t TOK_VARIABLE) as [->|_];
    [destruct Hc as [Hc|Hc]; discriminate Hc|].
  reflexivity.
Qed.

Lemma op_pow_weight (s : state) (f : pointer) :
  op_pow s = Some f -> weight (s_type s) = 1%nat.
Proof.
  unfold op_pow. destruct (s_type s =? TOK_INFIX) eqn:E; [|discriminate].
  apply Z.eqb_eq in E. rewrite E. reflexivity.
Qed.

Lemma op_mul_weight (s : state) (f : pointer) :
  op_mul s = Some f -> weight (s_type s) = 1%nat.
Proof.
  unfold op_mul. destruct (s_type s =? TOK_INFIX) eqn:E; [|discriminate].
  apply Z.eqb_eq in E. rewrite E. reflexivity.
Qed.

Lemma op_add_weight (s : state) (f : pointer) :
  op_add s = Some f -> weight (s_type s) = 1%nat.
Proof.
  unfold op_add. destruct (s_type s =? TOK_INFIX) eqn:E; [|discriminate].
  apply Z.eqb_eq in E. rewrite E. reflexivity.
Qed.

Lemma op_comma_weight (s : state) (f : pointer) :
  op_comma s = Some f -> weight (s_type s) = 1%nat.
Proof.
  unfold op_comma. destruct (s_type s =? TOK_SEP) eqn:E; [|discriminate].
  apply Z.eqb_eq in E. rewrite E. reflexivity.
Qed.

Lemma mu_next_lt (s : state) :
  weight (s_type s) = 1%nat -> (mu (next_token s) < mu s)%nat.
Proof.
  intros Hw. pose proof (mu_next_token s) as M.
  assert (mu s = S (String.length (s_next s))) as E by (unfold mu; lia). lia.
Qed.

Lemma turns_mu (s : state) : (mu s <= turns s)%nat.
Proof. unfold mu, turns. pose proof (weight_le (s_type s)). lia. Qed.

Section LoopTotal.
Variable sub : state -> res.
Variable op : state -> option pointer.
Hypothesis Hsub : forall s t s', sub s = Some (t, s') -> parsed s t s'.
Hypothesis Hop : forall s f, op s = Some f -> weight (s_type s) = 1%nat.

Lemma infix_loop_total (k : nat) (ret : te_expr) (s : state) :
  (mu s <= k)%nat ->
  (forall s', (mu s' < mu s)%nat -> sub s' <> None) ->
  infix_loop malloc_ok sub op k ret s <> None.
Proof.
  revert ret s. induction k as [|k IH]; intros ret s Hk Hs; cbn [infix_loop];
    destruct (op s) as [f|] eqn:Eop; try discriminate.
  - apply Hop in Eop. unfold mu in Hk. lia.
  - pose proof (Hop _ _ Eop) as Hw. pose proof (mu_next_lt s Hw) as M0.
    destruct (sub (next_token s)) as [[[p|] s2]|] eqn:Esub; try discriminate.
    + pose proof (parsed_mu _ _ _ (Hsub _ _ _ Esub)) as M1.
      destruct (new_binary ret p s2) as [[Hm E]|[Hm E]]; rewrite E;
        [|discriminate].
      apply IH; [unfold mu in *; heap; lia|].
      intros s' Hs'. apply Hs. unfold mu in *. heap. lia.
    + intros _. apply (Hs (next_token s)); [lia | exact Esub].
Qed.

Lemma level_total (s : state) :
  (forall s', (mu s' <= mu s)%nat -> sub s' <> None) ->
  level malloc_ok sub op s <> None.
Proof.
  intros Hs. unfold level.
  destruct (sub s) as [[[ret|] s1]|] eqn:E; try discriminate.
  - pose proof (parsed_mu _ _ _ (Hsub _ _ _ E)) as M.
    apply infix_loop_total; [apply turns_mu|].
    intros s' Hs'. apply Hs. lia.
  - intros _. apply (Hs s); [lia | exact E].
Qed.

Lemma base_args_total (k : nat) (i : Z) (ret : te_expr) (s : state) :
  weight (s_type s) = 1%nat ->
  (forall s', (mu s' < mu s)%nat -> sub s' <> None) ->
  base_args sub k i ret s <> None.
Proof.
  revert i ret s. induction k as [|k IH]; intros i ret s Hw Hs; cbn [base_args];
    [discriminate|].
  pose proof (mu_next_token s) as M0.
  destruct (sub (next_token s)) as [[[x|] s2]|] eqn:Esub; try discriminate.
  - pose proof (parsed_mu _ _ _ (Hsub _ _ _ Esub)) as M1.
    destruct (negb (s_type s2 =? TOK_SEP)) eqn:Esep; [discriminate|].
    apply negb_false_iff, Z.eqb_eq in Esep.
    apply IH; [rewrite Esep; reflexivity|].
    intros s' Hs'. apply Hs. lia.
  - intros _. apply (Hs (next_token s)); [unfold mu in *; lia | exact Esub].
Qed.

End LoopTotal.

Lemma power_total (base : state -> res) (s : state) :
  (forall s', (mu s' <= mu s)%nat -> base s' <> None) ->
  power_body malloc_ok base s <> None.
Proof.
  intros Hb. unfold power_body, negation.
  pose proof (quiet_signs (turns s) 1 s) as ((_ & _ & M & _) & _).
  destruct (power_signs (turns s) 1 s) as [sign s1]. cbn [snd] in M.
  specialize (Hb s1 M).
  destruct (sign =? 1); [exact Hb|].
  destruct (base s1) as [[[b|] s2]|]; try discriminate; [|congruence].
  destruct (new_unary b s2) as [[Hm E]|[Hm E]]; rewrite E; discriminate.
Qed.

Lemma base_total (power expr list_ : state -> res) (s : state) :
  (forall s t s', expr s = Some (t, s') -> parsed s t s') ->
  (forall s', (mu s' < mu s)%nat -> power s' <> None) ->
  (forall s', (mu s' < mu s)%nat -> expr s' <> None) ->
  (forall s', (mu s' < mu s)%nat -> list_ s' <> None) ->
  base_body malloc_ok power expr list_ s <> None.
Proof.
  intros He Tp Te Tl. unfold base_body.
  destruct (TYPE_MASK (s_type s) =? TOK_NUMBER).
  { destruct (new_leaf TE_CONSTANT s) as [[Hok E]|[Hok E]]; rewrite E; discriminate. }
  destruct (TYPE_MASK (s_type s) =? TOK_VARIABLE).
  { destruct (new_leaf TE_VARIABLE s) as [[Hok E]|[Hok E]]; rewrite E; discriminate. }
  destruct ((TYPE_MASK (s_type s) =? TE_FUNCTION0)
            || (TYPE_MASK (s_type s) =? TE_CLOSURE0)).
  { destruct (new_leaf (s_type s) s) as [[Hok E]|[Hok E]]; rewrite E;
      [|discriminate].
    cbv zeta. destruct (s_type (next_token _) =? TOK_OPEN);
      [destruct (negb (s_type (next_token (next_token _)) =? TOK_CLOSE))|];
      discriminate. }
  destruct ((TYPE_MASK (s_type s) =? TE_FUNCTION1)
            || (TYPE_MASK (s_type s) =? TE_CLOSURE1)) eqn:E1.
  { destruct (unary_type_facts _ E1) as (Hc & _).
    pose proof (weight_callable _ (or_introl Hc)) as Hw.
    destruct (new_leaf (s_type s) s) as [[Hok E]|[Hok E]]; rewrite E;
      [|discriminate].
    cbv zeta.
    set (s1 := with_heap s (S (heap_calls s)) (heap_live s + 1)) in *.
    pose proof (mu_next_lt s1 Hw) as M0.
    assert (power (next_token s1) <> None) as T.
    { apply Tp. exact M0. }
    destruct (power (next_token s1)) as [[[p|] s2]|]; [discriminate..|congruence]. }
  destruct ((TE_FUNCTION2 <=? TYPE_MASK (s_type s))
            && (TYPE_MASK (s_type s) <=? TE_FUNCTION7)
            || (TE_CLOSURE2 <=? TYPE_MASK (s_type s))
               && (TYPE_MASK (s_type s) <=? TE_CLOSURE7)) eqn:E2.
  { destruct (nary_type_facts _ E2) as (Hc & _).
    pose proof (weight_callable _ (or_introl Hc)) as Hw.
    destruct (new_leaf (s_type s) s) as [[Hok E]|[Hok E]]; rewrite E;
      [|discriminate].
    cbv zeta.
    set (s1 := with_heap s (S (heap_calls s)) (heap_live s + 1)) in *.
    pose proof (mu_next_lt s1 Hw) as M0.
    destruct (negb (s_type (next_token s1) =? TOK_OPEN)) eqn:Eo; [discriminate|].
    apply negb_false_iff, Z.eqb_eq in Eo.
    match goal with
    | |- context [base_args expr ?k ?i ?ret ?s2] =>
        pose proof (base_args_total expr He k i ret s2) as T
    end.
    destruct (base_args expr _ _ _ _) as [[[[ret i]|] s3]|].
    - destruct (negb (s_type s3 =? TOK_CLOSE) || _); discriminate.
    - discriminate.
    - exfalso. apply T; [rewrite Eo; reflexivity | | reflexivity].
      intros s' Hs'. apply Te. change (mu s) with (mu s1). lia. }
  destruct (TYPE_MASK (s_type s) =? TOK_OPEN) eqn:E3.
  { apply Z.eqb_eq in E3.
    pose proof (weight_callable _ (or_intror E3)) as Hw.
    pose proof (mu_next_lt s Hw) as M0.
    assert (list_ (next_token s) <> None) as T.
    { apply Tl. exact M0. }
    destruct (list_ (next_token s)) as [[[ret|] s1]|]; [|discriminate|congruence].
    destruct (negb (s_type s1 =? TOK_CLOSE)); discriminate. }
  destruct (new_leaf 0 s) as [[Hok E]|[Hok E]]; rewrite E; discriminate.
Qed.

(** No routine uses up a depth of six for each unit left to parse, plus
    its own rank in the chain of calls. *)
Lemma routines_total (n : nat) :
  (forall s, (6 * mu s + 1 <= n)%nat -> base malloc_ok n s <> None) /\
  (forall s, (6 * mu s + 2 <= n)%nat -> power malloc_ok n s <> None) /\
  (forall s, (6 * mu s + 3 <= n)%nat -> factor malloc_ok n s <> None) /\
  (forall s, (6 * mu s + 4 <= n)%nat -> term malloc_ok n s <> None) /\
  (forall s, (6 * mu s + 5 <= n)%nat -> expr malloc_ok n s <> None) /\
  (forall s, (6 * mu s + 6 <= n)%nat -> list_ malloc_ok n s <> None).
Proof.
  induction n as [|n (Tb & Tp & Tf & Tt & Te & Tl)].
  - six; intros s Hn; lia.
  - destruct (routines_parsed n) as (Hb & Hp & Hf & Ht & He & Hl).
    six; intros s Hn.
    + apply (base_total (power malloc_ok n) (expr malloc_ok n) (list_ malloc_ok n));
        [exact He | intros s' Hs'; apply Tp; lia | intros s' Hs'; apply Te; lia
         | intros s' Hs'; apply Tl; lia].
    + apply (power_total (base malloc_ok n)). intros s' Hs'. apply Tb. lia.
    + apply (level_total (power malloc_ok n) op_pow Hp op_pow_weight).
      intros s' Hs'. apply Tp. lia.
    + apply (level_total (factor malloc_ok n) op_mul Hf op_mul_weight).
      intros s' Hs'. apply Tf. lia.
    + apply (level_total (term malloc_ok n) op_add Ht op_add_weight).
      intros s' Hs'. apply Tt. lia.
    + apply (level_total (expr malloc_ok n) op_comma He op_comma_weight).
      intros s' Hs'. apply Te. lia.
Qed.

(** [parse] returns: the depth [te_compile] gives is enough. *)
Lemma parse_total (expression : string) (variables : list te_variable) :
  parse malloc_ok expression variables <> None.
Proof.
  unfold parse. apply routines_total.
  pose proof (mu_next_token (initial expression variables)) as M.
  unfold parse_depth. unfold mu at 2 in M. cbn [initial s_next] in M. lia.
Qed.

(** What [parse] leaves, counted from the state [te_compile] starts in. *)
Lemma parse_parsed (expression : string) (variables : list te_variable)
  (t : option te_expr) (s : state) :
  parse malloc_ok expression variables = Some (t, s) ->
  parsed (initial expression variables) t s.
Proof.
  intros E. eapply parsed_quiet_pre; [apply quiet_next, quiet_refl|].
  unfold parse in E.
  destruct (routines_parsed (parse_depth expression)) as (_ & _ & _ & _ & _ & Hl).
  apply Hl, E.
Qed.

End Parser.

(* ================================================================== *)
(** * Constant folding *)

(** No variable and no function or closure that is not pure: every node is
    a constant or carries the pure flag. *)
Fixpoint pure_tree (n : te_expr) : bool :=
  let 'Node type _ ps := n in
  (type =? TE_CONSTANT)
  || (IS_PURE type
      && forallb (fun p => match p with child c => pure_tree c | _ => true end) ps).

Definition slot_pure (p : slot te_expr) : bool :=
  match p with
  | child c => pure_tree c
  | _ => true
  end.

Lemma pure_tree_eq (type : Z) (u : te_union) (ps : list (slot te_expr)) :
  pure_tree (Node type u ps)
  = (type =? TE_CONSTANT) || (IS_PURE type && forallb slot_pure ps).
Proof. reflexivity. Qed.

Section Folding.
Context {H : Host}.

Definition slot_eval (p : slot te_expr) : float :=
  match p with
  | child c => te_eval c
  | _ => nan
  end.

(** What [te_eval] computes at a node from the values of the children and
    the pointer in the slot after them. *)
Definition eval_node (type : Z) (u : te_union) (vals : list float) (ctx : pointer)
  : float :=
  let M := fun e : nat => nth e vals nan in
  let args := fun k : nat => map (fun e => arg_double (M e)) (seq 0 k) in
  let m := TYPE_MASK type in
  let arity := ARITY type in
  if m =? TE_CONSTANT then value_of u
  else if m =? TE_VARIABLE then
    match ptr_of u with
    | ptr_double l => deref l
    | _ => nan
    end
  else if (TE_FUNCTION0 <=? m) && (m <=? TE_FUNCTION7) then
    if (0 <=? arity) && (arity <=? 7)
    then call (ptr_of u) (args (Z.to_nat arity))
    else nan
  else if (TE_CLOSURE0 <=? m) && (m <=? TE_CLOSURE7) then
    if (0 <=? arity) && (arity <=? 7)
    then call (ptr_of u) (arg_ptr ctx :: args (Z.to_nat arity))
    else nan
  else nan.

Lemma te_eval_eq (type : Z) (u : te_union) (ps : list (slot te_expr)) :
  te_eval (Node type u ps)
  = eval_node type u (map slot_eval ps) (slot_ptr ps (Z.to_nat (ARITY type))).
Proof. reflexivity. Qed.

(** Only the first [ARITY] values count. *)
Lemma eval_node_ext (type : Z) (u : te_union) (vals vals' : list float)
  (ctx : pointer) :
  (forall e, (e < Z.to_nat (ARITY type))%nat -> nth e vals nan = nth e vals' nan) ->
  eval_node type u vals ctx = eval_node type u vals' ctx.
Proof.
  intros Hv. unfold eval_node.
  assert (map (fun e => arg_double (nth e vals nan)) (seq 0 (Z.to_nat (ARITY type)))
          = map (fun e => arg_double (nth e vals' nan)) (seq 0 (Z.to_nat (ARITY type))))
    as ->.
  { apply map_ext_in. intros e He. apply in_seq in He. rewrite Hv by lia.
    reflexivity. }
  reflexivity.
Qed.

(** The node [optimize] leaves in place of the tree [c]: a constant that
    holds the value of [c] and owns no other block. *)
Definition folded (c t : te_expr) : Prop :=
  e_type t = TE_CONSTANT /\ e_u t = Value (te_eval c) /\ te_blocks t = 1.

Definition opt_slot (p : slot te_expr) : slot te_expr :=
  match p with
  | child c => child (optimize c)
  | _ => p
  end.

Lemma optimize_eq (type : Z) (u : te_union) (ps : list (slot te_expr)) :
  optimize (Node type u ps)
  = if type =? TE_CONSTANT then Node type u ps
    else if type =? TE_VARIABLE then Node type u ps
    else if IS_PURE type then
      let ps' := map_first opt_slot (Z.to_nat (ARITY type)) ps in
      if negb (existsb unknown (firstn (Z.to_nat (ARITY type)) ps'))
      then set_u (set_type (te_free_parameters (Node type u ps')) TE_CONSTANT)
             (Value (te_eval (Node type u ps')))
      else Node type u ps'
    else Node type u ps.
Proof. reflexivity. Qed.

Definition folds (c : te_expr) : Prop :=
  wf c = true -> pure_tree c = true -> folded c (optimize c).

Lemma slot_ptr_map_first (g : slot te_expr -> slot te_expr) (a : nat)
  (ps : list (slot te_expr)) :
  slot_ptr (map_first g a ps) a = slot_ptr ps a.
Proof.
  unfold slot_ptr. revert a.
  induction ps as [|p ps IH]; intros a; [destruct a; reflexivity|].
  destruct a as [|a]; [reflexivity|]. cbn [map_first nth_error]. apply IH.
Qed.

(** The children of a well-formed pure node after [optimize] has visited
    them: all known, with the values they had. *)
Lemma optimize_children (a : nat) (ps : list (slot te_expr)) :
  list_all _ (slot_all _ folds) ps ->
  all_first slot_wf a ps = true -> forallb slot_pure ps = true ->
  existsb unknown (firstn a (map_first opt_slot a ps)) = false /\
  forall e, (e < a)%nat ->
    nth e (map slot_eval (map_first opt_slot a ps)) nan
    = nth e (map slot_eval ps) nan.
Proof.
  intros Hall. revert a. induction Hall as [|p Hp ps Hps IH]; intros a Hwf Hpure.
  - destruct a; [|discriminate Hwf]. split; [reflexivity | intros e He; lia].
  - destruct a as [|a]; [split; [reflexivity | intros e He; lia]|].
    cbn [all_first] in Hwf. apply andb_prop in Hwf as [Wp Wps].
    cbn [forallb] in Hpure. apply andb_prop in Hpure as [Pp Pps].
    destruct (IH a Wps Pps) as [Hk Hv].
    destruct Hp as [c Hc| |]; try discriminate Wp.
    destruct (Hc Wp Pp) as (Et & Eu & _).
    cbn [map_first opt_slot firstn existsb unknown map].
    rewrite Et, Z.eqb_refl. cbn [negb orb]. split; [exact Hk|].
    intros [|e] He; cbn [nth].
    + cbn [slot_eval]. destruct (optimize c) as [ty' u' ps'].
      cbn [e_type e_u] in Et, Eu. subst ty' u'.
      rewrite te_eval_eq. reflexivity.
    + apply Hv. lia.
Qed.

Lemma te_blocks_constant (u : te_union) (ps : list (slot te_expr)) :
  te_blocks (Node TE_CONSTANT u ps) = 1.
Proof. rewrite te_blocks_eq. destruct ps; reflexivity. Qed.

(** [optimize] folds every well-formed tree of constants and pure
    functions into one constant that holds the value [te_eval] gave the
    tree. *)
Lemma optimize_folds (n : te_expr) : folds n.
Proof.
  induction n as [type u ps IH] using te_expr_ind. intros Hwf Hpure.
  rewrite wf_eq in Hwf. rewrite pure_tree_eq in Hpure. rewrite optimize_eq.
  destruct (type =? TE_CONSTANT) eqn:E1.
  - apply Z.eqb_eq in E1. subst type. destruct u as [v|p]; [|discriminate Hwf].
    repeat split. apply te_blocks_constant.
  - cbn [orb] in Hpure. apply andb_prop in Hpure as [Hp Hps].
    destruct (type =? TE_VARIABLE) eqn:E0.
    { apply Z.eqb_eq in E0. subst type. discriminate Hp. }
    apply andb_prop in Hwf as [Hc Hall]. rewrite Hp. cbv zeta.
    destruct (optimize_children _ _ IH Hall Hps) as [Hk Hv].
    rewrite Hk. cbn [negb]. unfold te_free_parameters. cbn [set_type set_u].
    repeat split; [|apply te_blocks_constant]. cbn [e_u]. f_equal.
    rewrite !te_eval_eq, slot_ptr_map_first. apply eval_node_ext, Hv.
Qed.

End Folding.

(* ================================================================== *)
(** * [te_compile]: folding and error reporting *)

(** No node of the tree is a variable. *)
Fixpoint variable_free (n : te_expr) : bool :=
  let 'Node type _ ps := n in
  negb (TYPE_MASK type =? TE_VARIABLE)
  && forallb (fun p => match p with child c => variable_free c | _ => true end) ps.

(** A function of no argument that the calling program registers without
    the pure flag. *)
Definition impure_f : te_variable :=
  {| v_name := "f"; v_address := ptr_fun (fn_extern 0);
     v_type := TE_FUNCTION0; v_context := null |}.

(** C1, as stated, fails: the expression f() names no variable and is
    accepted, yet the tree [te_compile] returns for it is the function
    node, not a constant, because [optimize] folds pure nodes only. *)
Lemma te_compile_keeps_impure :
  let root := Node TE_FUNCTION0 (Ptr (ptr_fun (fn_extern 0))) [] in
  exists s,
    parse (H := small_host) plenty "f()" [impure_f] = Some (Some root, s) /\
    s_type s = TOK_END /\ variable_free root = true /\
    te_compile (H := small_host) plenty "f()" [impure_f] = (Some root, 0, s) /\
    e_type root <> TE_CONSTANT.
Proof.
  cbv zeta. eexists. split; [vm_compute; reflexivity|].
  split; [reflexivity|]. split; [reflexivity|]. split; [reflexivity|].
  discriminate.
Qed.

(** C1 (amended): for every expression that [te_compile] accepts and whose
    parse tree holds only constants and pure functions or closures (no
    variable, no function or closure without the pure flag), the tree
    returned is a single constant node, and the value it stores is the
    value [te_eval] gives the parse tree before [optimize]. *)
Theorem te_compile_folds (H : Host) (malloc_ok : nat -> bool)
  (expression : string) (variables : list te_variable)
  (root : te_expr) (s : state) :
  parse malloc_ok expression variables = Some (Some root, s) ->
  s_type s = TOK_END ->
  pure_tree root = true ->
  exists t,
    te_compile malloc_ok expression variables = (Some t, 0, s) /\
    e_type t = TE_CONSTANT /\ e_u t = Value (te_eval root) /\ te_blocks t = 1.
Proof.
  intros Hparse Hend Hpure.
  pose proof (parse_parsed malloc_ok _ _ _ _ Hparse) as (_ & _ & _ & W).
  assert (wf root = true) as Hwf.
  { destruct W as [E|W]; [|exact W]. rewrite Hend in E. discriminate E. }
  exists (optimize root). split.
  - unfold te_compile. rewrite Hparse, Hend. reflexivity.
  - apply optimize_folds; assumption.
Qed.

Lemma te_compile_folds_witness :
  exists t,
    te_compile (H := small_host) plenty "1+2*3" [] =
      (Some t, 0,
       {| s_next := EmptyString; s_pos := 5; s_type := TOK_END; s_u := Value 3;
          s_context := null; s_lookup := []; heap_calls := 5; heap_live := 5 |}) /\
    e_type t = TE_CONSTANT /\
    e_u t = Value (te_eval (H := small_host)
                     (binary (Ptr (ptr_fun fn_add)) (Node TE_CONSTANT (Value 1) [])
                        (binary (Ptr (ptr_fun fn_mul))
                           (Node TE_CONSTANT (Value 2) [])
                           (Node TE_CONSTANT (Value 3) [])))) /\
    te_blocks t = 1.
Proof.
  apply (te_compile_folds small_host plenty "1+2*3" []); reflexivity.
Defined.

(** C2: [te_compile] always returns, in one of three ways.  When a call of
    [malloc] failed during parsing it returns no tree and -1, and every
    block it had allocated is released.  When the parser did not stop on
    the END token it returns no tree, every block is released, and the
    error is the number of characters read when parsing got stuck (a
    position within the input), 0 being reported as 1.  Otherwise no
    allocation failed, and it returns the optimized root and 0. *)
Theorem te_compile_error (H : Host) (malloc_ok : nat -> bool)
  (expression : string) (variables : list te_variable) :
  match parse malloc_ok expression variables with
  | None => False
  | Some (None, s) =>
      te_compile malloc_ok expression variables = (None, -1, s) /\
      heap_live s = 0 /\
      exists k : nat, (k < heap_calls s)%nat /\ malloc_ok k = false
  | Some (Some root, s) =>
      (forall k : nat, (k < heap_calls s)%nat -> malloc_ok k = true) /\
      0 <= s_pos s <= Z.of_nat (String.length expression) /\
      s_next s = drop (Z.to_nat (s_pos s)) expression /\
      if s_type s =? TOK_END
      then te_compile malloc_ok expression variables = (Some (optimize root), 0, s)
      else
        exists s',
          te_compile malloc_ok expression variables
          = (None, (if s_pos s =? 0 then 1 else s_pos s), s') /\
          heap_live s' = 0
  end.
Proof.
  pose proof (parse_total malloc_ok expression variables) as T.
  pose proof (parse_parsed malloc_ok expression variables) as P.
  unfold te_compile.
  destruct (parse malloc_ok expression variables) as [[[root|] s]|];
    [| |congruence]; specialize (P _ _ eq_refl);
    destruct P as ((_ & (k & Hk & Hn & Hp) & _ & _) & L & R);
    cbn [initial s_next s_pos heap_live heap_calls blocks_of] in *.
  - destruct R as [K _]. split; [intros j Hj; apply K; lia|].
    split; [lia|]. split; [rewrite Hp, Z.add_0_l, Nat2Z.id; exact Hn|].
    destruct (s_type s =? TOK_END); cbn [negb]; [reflexivity|].
    eexists. split; [reflexivity|]. cbn [te_free with_heap heap_live]. lia.
  - destruct R as [C F]. split; [reflexivity|]. split; [lia|].
    exists (pred (heap_calls s)). split; [lia | exact F].
Qed.

(* ================================================================== *)
(** * Identifiers: which binding an identifier resolves to *)

(** The binding has this name. *)
Definition named (id : string) (v : te_variable) : bool := (v_name v =? id)%string.

Lemma functions_unique (v w : te_variable) :
  In v functions -> In w functions -> v_name v = v_name w -> v = w.
Proof.
  intros Hv Hw E.
  apply In_functions_at in Hv as (i & Hi & <-).
  apply In_functions_at in Hw as (j & Hj & <-).
  destruct (Z.eq_dec i j) as [->|Hne]; [reflexivity|]. exfalso.
  rewrite !functions_at_name in E.
  assert (forall a b, 0 <= a < b -> b < Z.of_nat (List.length functions) ->
            nth (Z.to_nat a) names EmptyString <> nth (Z.to_nat b) names EmptyString)
    as Hlt.
  { intros a b Hab Hb E'.
    pose proof (ascending_nth names names_ascending (Z.to_nat a) (Z.to_nat b)) as L.
    rewrite E', compare_refl_string in L.
    assert (Lt = Eq -> False) as D by discriminate. apply D. symmetry. apply L.
    unfold names. rewrite length_map. lia. }
  destruct (Z_lt_le_dec i j) as [L|L].
  - apply (Hlt i j); [lia | lia | exact E].
  - apply (Hlt j i); [lia | lia | symmetry; exact E].
Qed.

Lemma find_first_unique {A : Type} (p : A -> bool) (l : list A) (v : A) :
  (forall x y, In x l -> In y l -> p x = true -> p y = true -> x = y) ->
  In v l -> p v = true -> find p l = Some v.
Proof.
  induction l as [|x l IH]; intros Hu Hv Hp; [destruct Hv|].
  cbn [find]. destruct (p x) eqn:Ex.
  - f_equal. apply Hu; [left; reflexivity | exact Hv | exact Ex | exact Hp].
  - destruct Hv as [->|Hv]; [congruence|].
    apply IH; [|exact Hv|exact Hp].
    intros a b Ha Hb. apply Hu; right; assumption.
Qed.

Lemma find_none_iff {A : Type} (p : A -> bool) (l : list A) :
  (forall x, In x l -> p x = false) -> find p l = None.
Proof.
  induction l as [|x l IH]; intros Hn; [reflexivity|].
  cbn [find]. rewrite (Hn x (or_introl eq_refl)).
  apply IH. intros y Hy. apply Hn. right. exact Hy.
Qed.

Lemma length_take (len : nat) (s : string) :
  (len <= String.length s)%nat -> String.length (take len s) = len.
Proof.
  revert s. induction len as [|len IH]; intros s Hs; [reflexivity|].
  destruct s as [|c s]; cbn [String.length] in Hs; [lia|].
  cbn [take String.length]. f_equal. apply IH. lia.
Qed.

(** C6: the binary search of [find_builtin] over the sorted table, with
    its second comparison on the length, returns for every identifier (the
    first [len] characters of [name]) the entry of the table whose name is
    exactly the identifier, and nothing when there is none; so the
    identifier sin resolves to the entry sin, never to sinh, whatever
    follows it in the input. *)
Theorem find_builtin_exact (name : string) (len : nat) :
  (len <= ident_len name)%nat ->
  find_builtin name len = find (named (take len name)) functions /\
  (forall v, find_builtin name len = Some v ->
     v_name v = take len name /\ String.length (v_name v) = len) /\
  find_builtin "sinh" 3 = Some (builtin "sin" fn_sin (Z.lor TE_FUNCTION1 TE_FLAG_PURE)) /\
  find_builtin "sin" 3 = Some (builtin "sin" fn_sin (Z.lor TE_FUNCTION1 TE_FLAG_PURE)) /\
  find_builtin "sinh" 4 = Some (builtin "sinh" fn_sinh (Z.lor TE_FUNCTION1 TE_FLAG_PURE)).
Proof.
  intros Hlen.
  assert (String.length (take len name) = len) as Htake.
  { apply length_take. pose proof (ident_len_le name). lia. }
  pose proof (find_builtin_spec name len Hlen) as Hs.
  split; [|split; [|repeat split; reflexivity]].
  - destruct (find_builtin name len) as [v|].
    + destruct Hs as [Hin Hname]. symmetry. apply find_first_unique.
      * intros x y Hx Hy Px Py. apply functions_unique; try assumption.
        apply String.eqb_eq in Px, Py. congruence.
      * exact Hin.
      * apply String.eqb_eq. exact Hname.
    + symmetry. apply find_none_iff. intros x Hx. apply String.eqb_neq.
      apply Hs, Hx.
  - intros v Hv. rewrite Hv in Hs. destruct Hs as [_ Hname].
    split; [exact Hname | rewrite Hname; exact Htake].
Qed.

Lemma find_builtin_exact_witness :
  find_builtin "sinh(1)" 4 = find (named (take 4 "sinh(1)")) functions /\
  (forall v, find_builtin "sinh(1)" 4 = Some v ->
     v_name v = take 4 "sinh(1)" /\ String.length (v_name v) = 4%nat) /\
  find_builtin "sinh" 3 = Some (builtin "sin" fn_sin (Z.lor TE_FUNCTION1 TE_FLAG_PURE)) /\
  find_builtin "sin" 3 = Some (builtin "sin" fn_sin (Z.lor TE_FUNCTION1 TE_FLAG_PURE)) /\
  find_builtin "sinh" 4 = Some (builtin "sinh" fn_sinh (Z.lor TE_FUNCTION1 TE_FLAG_PURE)).
Proof.
  apply (find_builtin_exact "sinh(1)" 4). vm_compute. lia.
Defined.

(** C10: [find_lookup] matches an identifier (the first [len] characters of
    [name]) only against a binding whose name is exactly the identifier:
    the same first [len] characters and the length [len]; it finds nothing
    exactly when no binding has that name.  So the identifier sin does not
    match a binding named sinh, nor the identifier sinh a binding named
    sin. *)
Theorem find_lookup_exact (lookup : list te_variable) (name : string) (len : nat) :
  (len <= ident_len name)%nat ->
  forallb (fun v => nul_free (v_name v)) lookup = true ->
  (forall var, find_lookup lookup name len = Some var ->
     In var lookup /\ v_name var = take len name /\
     String.length (v_name var) = len) /\
  (find_lookup lookup name len = None <->
   forall v, In v lookup -> v_name v <> take len name) /\
  (forall a t c,
     find_lookup [{| v_name := "sinh"; v_address := a; v_type := t; v_context := c |}]
       "sin" 3 = None) /\
  (forall a t c,
     find_lookup [{| v_name := "sin"; v_address := a; v_type := t; v_context := c |}]
       "sinh" 4 = None).
Proof.
  intros Hlen Hnul. rewrite (find_lookup_first lookup name len Hlen Hnul).
  split; [|split; [|split; intros; reflexivity]].
  - intros var Hf. apply find_some in Hf as [Hin Hp].
    apply String.eqb_eq in Hp. repeat split; try assumption.
    rewrite Hp. apply length_take. pose proof (ident_len_le name). lia.
  - split.
    + intros Hf v Hv E. apply (find_none _ _ Hf) in Hv.
      apply String.eqb_neq in Hv. contradiction.
    + intros Hn. apply find_none_iff. intros v Hv. apply String.eqb_neq, Hn, Hv.
Qed.

Lemma find_lookup_exact_witness :
  let x := {| v_name := "x"; v_address := ptr_double 0; v_type := TE_VARIABLE;
              v_context := null |} in
  let xy := {| v_name := "xy"; v_address := ptr_double 1; v_type := TE_VARIABLE;
               v_context := null |} in
  (forall var, find_lookup [xy; x] "x+xy" 1 = Some var ->
     In var [xy; x] /\ v_name var = take 1 "x+xy" /\
     String.length (v_name var) = 1%nat) /\
  (find_lookup [xy; x] "x+xy" 1 = None <->
   forall v, In v [xy; x] -> v_name v <> take 1 "x+xy") /\
  (forall a t c,
     find_lookup [{| v_name := "sinh"; v_address := a; v_type := t; v_context := c |}]
       "sin" 3 = None) /\
  (forall a t c,
     find_lookup [{| v_name := "sin"; v_address := a; v_type := t; v_context := c |}]
       "sinh" 4 = None).
Proof.
  cbv zeta. apply find_lookup_exact; [vm_compute; lia | reflexivity].
Defined.

Lemma alpha_not_number (c : ascii) :
  isalpha c = true -> (("0" <=? c) && (c <=? "9"))%char || (c =? ".")%char = false.
Proof.
  destruct c as [[] [] [] [] [] [] [] []]; intros E; try reflexivity;
    discriminate E.
Qed.

(** The variable that the calling program names sin. *)
Definition sin_variable (x : N) : te_variable :=
  {| v_name := "sin"; v_address := ptr_double x; v_type := TE_VARIABLE;
     v_context := null |}.

(** C5: when the input stands at an identifier, one turn of [next_token]
    takes the first binding of the caller, in the order of registration,
    that has the name of the identifier, and turns to the table of
    built-ins only when the caller has none; no binding at all is the ERROR
    token.  With sin registered as a variable, the expression sin compiles
    to that variable and evaluates to the double it points to. *)
Theorem resolution_order (H : Host) (s : state) (c : ascii) (r : string) :
  s_next s = String c r -> isalpha c = true ->
  forallb (fun v => nul_free (v_name v)) (s_lookup s) = true ->
  let len := ident_len (s_next s) in
  let id := take len (s_next s) in
  scan c s
  = match find (named id) (s_lookup s) with
    | Some var => set_token var (advance len s)
    | None =>
        match find (named id) functions with
        | Some var => set_token var (advance len s)
        | None => with_type (advance len s) TOK_ERROR
        end
    end
  /\ forall x : N,
       fst (fst (te_compile plenty "sin" [sin_variable x]))
       = Some (Node TE_VARIABLE (Ptr (ptr_double x)) [])
       /\ te_eval (Node TE_VARIABLE (Ptr (ptr_double x)) []) = deref x.
Proof.
  intros Hs Ha Hnul len id. split.
  - unfold scan. rewrite (alpha_not_number c Ha), Ha. unfold resolve.
    cbn [advance s_lookup]. fold len.
    rewrite (find_lookup_first _ _ len (Nat.le_refl _) Hnul). fold id.
    fold (named id).
    destruct (find (named id) (s_lookup s)); [reflexivity|].
    destruct (find_builtin_exact (s_next s) len (Nat.le_refl _)) as [-> _].
    reflexivity.
  - intros x. split; reflexivity.
Qed.

Lemma resolution_order_witness :
  let s := initial "sin x" [sin_variable 7] in
  scan (H := small_host) "s" s
  = match find (named (take (ident_len (s_next s)) (s_next s))) (s_lookup s) with
    | Some var => set_token var (advance (ident_len (s_next s)) s)
    | None =>
        match find (named (take (ident_len (s_next s)) (s_next s))) functions with
        | Some var => set_token var (advance (ident_len (s_next s)) s)
        | None => with_type (advance (ident_len (s_next s)) s) TOK_ERROR
        end
    end
  /\ forall x : N,
       fst (fst (te_compile (H := small_host) plenty "sin" [sin_variable x]))
       = Some (Node TE_VARIABLE (Ptr (ptr_double x)) [])
       /\ te_eval (H := small_host) (Node TE_VARIABLE (Ptr (ptr_double x)) [])
          = deref (Host := small_host) x.
Proof.
  cbv zeta.
  apply (resolution_order small_host (initial "sin x" [sin_variable 7]) "s" "in x");
    reflexivity.
Defined.

(* ================================================================== *)
(** * Unary signs *)

Section Signs.
Context {H : Host}.

(** The token is a sign. *)
Definition is_sign (s : state) : bool :=
  (s_type s =? TOK_INFIX) && (is_fn (s_u s) fn_add || is_fn (s_u s) fn_sub).

(** [sign_run s m s']: from the token of [s] on there is a run of sign
    tokens, [m] of them minus signs, and [s'] holds the first token after
    the run. *)
Inductive sign_run : state -> nat -> state -> Prop :=
| run_end (s : state) :
    is_sign s = false -> sign_run s O s
| run_plus (s : state) (m : nat) (s' : state) :
    is_sign s = true -> is_fn (s_u s) fn_sub = false ->
    sign_run (next_token s) m s' -> sign_run s m s'
| run_minus (s : state) (m : nat) (s' : state) :
    is_sign s = true -> is_fn (s_u s) fn_sub = true ->
    sign_run (next_token s) m s' -> sign_run s (S m) s'.

Lemma is_sign_weight (s : state) : is_sign s = true -> weight (s_type s) = 1%nat.
Proof.
  unfold is_sign. destruct (s_type s =? TOK_INFIX) eqn:E; [|discriminate].
  apply Z.eqb_eq in E. rewrite E. reflexivity.
Qed.

(** The loop over the signs reads the whole run and returns its net
    sign. *)
Lemma power_signs_run (k : nat) (sign : Z) (s : state) :
  (mu s <= k)%nat ->
  exists m s', sign_run s m s' /\
    power_signs k sign s = ((if Nat.even m then sign else - sign), s').
Proof.
  revert sign s. induction k as [|k IH]; intros sign s Hk; cbn [power_signs];
    fold (is_sign s); destruct (is_sign s) eqn:Es.
  - apply is_sign_weight in Es. unfold mu in Hk. lia.
  - exists O, s. split; [apply run_end, Es | reflexivity].
  - pose proof (mu_next_lt s (is_sign_weight s Es)) as M.
    destruct (IH (if is_fn (s_u s) fn_sub then - sign else sign) (next_token s))
      as (m & s' & R & E); [lia|]. rewrite E.
    destruct (is_fn (s_u s) fn_sub) eqn:Eb.
    + exists (S m), s'. split; [apply run_minus; assumption|].
      rewrite Nat.even_succ, <- Nat.negb_even.
      destruct (Nat.even m); cbn [negb]; [reflexivity|].
      rewrite Z.opp_involutive. reflexivity.
    + exists m, s'. split; [apply run_plus; assumption | reflexivity].
  - exists O, s. split; [apply run_end, Es | reflexivity].
Qed.

End Signs.

(** The variable that the calling program names x. *)
Definition x_variable (x : N) : te_variable :=
  {| v_name := "x"; v_address := ptr_double x; v_type := TE_VARIABLE;
     v_context := null |}.

(** C4: [power] reads the whole run of sign tokens before the base.  With
    an even number of minus signs in the run its result is the result of
    [base], the subtree itself; with an odd number it is the subtree under
    one node, a pure function of one argument that negates, whose value is
    the negated value of the subtree.  So - - x is the variable x and
    evaluates to it, and -x and - - -x are one negation of x. *)
Theorem power_sign (H : Host) (malloc_ok : nat -> bool) (base : state -> res)
  (s : state) :
  (exists m s1,
     sign_run s m s1 /\
     power_body malloc_ok base s
     = (if Nat.even m then base s1 else negation malloc_ok base s1) /\
     forall n s2, negation malloc_ok base s1 = Some (Some n, s2) ->
       exists b s', base s1 = Some (Some b, s') /\
         n = unary (Ptr (ptr_fun fn_negate)) b /\
         IS_PURE (e_type n) = true /\ ARITY (e_type n) = 1 /\
         te_eval n = (- te_eval b)%float) /\
  forall x : N,
    let var := Node TE_VARIABLE (Ptr (ptr_double x)) [] in
    let neg := unary (Ptr (ptr_fun fn_negate)) var in
    fst (fst (te_compile plenty "- - x" [x_variable x])) = Some var /\
    fst (fst (te_compile plenty "-x" [x_variable x])) = Some neg /\
    fst (fst (te_compile plenty "- - -x" [x_variable x])) = Some neg /\
    fst (fst (te_compile plenty "+-+x" [x_variable x])) = Some neg /\
    te_eval var = deref x /\ te_eval neg = (- deref x)%float.
Proof.
  split; [|intros x; cbv zeta; repeat split; reflexivity].
  destruct (power_signs_run (turns s) 1 s (turns_mu s)) as (m & s1 & R & E).
  exists m, s1. split; [exact R|]. split.
  - unfold power_body. rewrite E. destruct (Nat.even m); reflexivity.
  - intros n s2. unfold negation.
    destruct (base s1) as [[[b|] s']|]; try discriminate.
    destruct (new_unary malloc_ok b s') as [[Hm En]|[Hm En]]; rewrite En;
      intros [= <- <-].
    exists b, s'. repeat split.
Qed.

(* ================================================================== *)
(** * Closures: the slot of the context *)

Lemma nth_error_store_same {A : Type} (l : list A) (i : nat) (x : A) :
  (i < List.length l)%nat -> nth_error (store l i x) i = Some x.
Proof.
  revert i. induction l as [|y l IH]; intros i Hi; [cbn in Hi; lia|].
  destruct i; cbn [store nth_error]; [reflexivity|]. apply IH. cbn in Hi. lia.
Qed.

Lemma nth_error_store_other {A : Type} (l : list A) (i j : nat) (x : A) :
  i <> j -> nth_error (store l i x) j = nth_error l j.
Proof.
  revert i j. induction l as [|y l IH]; intros i j Hij; [destruct i; reflexivity|].
  destruct i, j; cbn [store nth_error]; try reflexivity; try lia. apply IH. lia.
Qed.

(** The loop over the arguments writes below [i + k] only. *)
Lemma base_args_keeps {H : Host} (sub : state -> res) (type : Z) (u : te_union)
  (k i : nat) (ps : list (slot te_expr)) (s : state)
  (ret : te_expr) (i' : Z) (s' : state) :
  base_args sub k (Z.of_nat i) (Node type u ps) s = Some (Some (ret, i'), s') ->
  exists ps', ret = Node type u ps' /\
    forall j, (i + k <= j)%nat -> nth_error ps' j = nth_error ps j.
Proof.
  revert i ps s. induction k as [|k IH]; intros i ps s; cbn [base_args].
  - intros [= <- <- <-]. exists ps. split; [reflexivity | intros; reflexivity].
  - destruct (sub (next_token s)) as [[[x|] s2]|]; try discriminate.
    cbn [set_param]. rewrite Nat2Z.id.
    destruct (negb (s_type s2 =? TOK_SEP)).
    + intros [= <- <- <-]. eexists. split; [reflexivity|].
      intros j Hj. apply nth_error_store_other. lia.
    + replace (Z.of_nat i + 1) with (Z.of_nat (S i)) by lia. intros E.
      apply IH in E as (ps' & -> & Hps'). exists ps'. split; [reflexivity|].
      intros j Hj. rewrite Hps' by lia. apply nth_error_store_other. lia.
Qed.

(** The node of a closure token before its arguments: the context is in
    the slot the source names. *)
Lemma callee_context (i : nat) (type : Z) (k : nat) (s : state) :
  IS_CLOSURE (s_type s) = true -> (i < k)%nat ->
  exists ps, callee (Z.of_nat i) (Node type (Ptr null) (repeat (raw null) k)) s
             = Node type (Ptr (ptr_of (s_u s))) ps
    /\ nth_error ps i = Some (raw (s_context s)).
Proof.
  intros Hc Hi. unfold callee. rewrite Hc. cbn [set_u set_param].
  rewrite Nat2Z.id. eexists. split; [reflexivity|].
  apply nth_error_store_same. rewrite repeat_length. exact Hi.
Qed.

Lemma closure_type_facts (t : Z) :
  (TE_CLOSURE0 <=? TYPE_MASK t) && (TYPE_MASK t <=? TE_CLOSURE7) = true ->
  IS_CLOSURE t = true /\ 0 <= ARITY t <= 7 /\
  (TYPE_MASK t =? TOK_NUMBER) = false /\ (TYPE_MASK t =? TOK_VARIABLE) = false /\
  (TYPE_MASK t =? TOK_OPEN) = false /\
  (TYPE_MASK t =? TE_CONSTANT) = false /\ (TYPE_MASK t =? TE_VARIABLE) = false /\
  (TE_FUNCTION0 <=? TYPE_MASK t) && (TYPE_MASK t <=? TE_FUNCTION7) = false /\
  ((TYPE_MASK t =? TE_FUNCTION0) || (TYPE_MASK t =? TE_CLOSURE0) = true ->
   ARITY t = 0) /\
  ((TYPE_MASK t =? TE_FUNCTION1) || (TYPE_MASK t =? TE_CLOSURE1) = true ->
   ARITY t = 1) /\
  ((TYPE_MASK t =? TE_FUNCTION0) || (TYPE_MASK t =? TE_CLOSURE0) = false ->
   (TYPE_MASK t =? TE_FUNCTION1) || (TYPE_MASK t =? TE_CLOSURE1) = false ->
   (TE_FUNCTION2 <=? TYPE_MASK t) && (TYPE_MASK t <=? TE_FUNCTION7)
   || (TE_CLOSURE2 <=? TYPE_MASK t) && (TYPE_MASK t <=? TE_CLOSURE7) = true).
Proof.
  rewrite ARITY_mask, IS_CLOSURE_mask. pose proof (mask_range t) as Hm.
  set (m := TYPE_MASK t) in *. clearbody m. intros E.
  each_mask m; try discriminate E; cbv; repeat split; intros;
    try reflexivity; try discriminate.
Qed.

(** C9: for a closure token of any arity, the node [base] builds holds the
    context pointer of the binding in the slot just after its children,
    [parameters[ARITY]], and [te_eval] calls the function of the node with
    the pointer of that slot as first argument, then the values of the
    children. *)
Theorem closure_context (H : Host) (malloc_ok : nat -> bool)
  (power expr list_ : state -> res) (s : state) (n : te_expr) (s' : state) :
  (TE_CLOSURE0 <=? TYPE_MASK (s_type s)) && (TYPE_MASK (s_type s) <=? TE_CLOSURE7)
  = true ->
  base_body malloc_ok power expr list_ s = Some (Some n, s') ->
  let arity := Z.to_nat (ARITY (s_type s)) in
  e_type n = s_type s /\
  nth_error (e_parameters n) arity = Some (raw (s_context s)) /\
  te_eval n
  = call (ptr_of (s_u s))
      (arg_ptr (slot_ptr (e_parameters n) arity)
       :: map (fun e => arg_double (nth e (map slot_eval (e_parameters n)) nan))
            (seq 0 arity)) /\
  slot_ptr (e_parameters n) arity = s_context s.
Proof.
  intros Hcl Hbase arity.
  destruct (closure_type_facts _ Hcl)
    as (Hc & Ha & N1 & N2 & N3 & N4 & N5 & N6 & A0 & A1 & A2).
  assert (forall ps,
            nth_error ps arity = Some (raw (s_context s)) ->
            s_type s = s_type s /\
            nth_error ps arity = Some (raw (s_context s)) /\
            te_eval (Node (s_type s) (Ptr (ptr_of (s_u s))) ps)
            = call (ptr_of (s_u s))
                (arg_ptr (slot_ptr ps arity)
                 :: map (fun e => arg_double (nth e (map slot_eval ps) nan))
                      (seq 0 arity)) /\
            slot_ptr ps arity = s_context s) as Hnode.
  { intros ps Hps. split; [reflexivity|]. split; [exact Hps|]. split.
    - rewrite te_eval_eq. unfold eval_node. rewrite N4, N5, N6, Hcl.
      assert ((0 <=? ARITY (s_type s)) && (ARITY (s_type s) <=? 7) = true) as ->.
      { apply andb_true_intro. split; apply Z.leb_le; lia. }
      reflexivity.
    - unfold slot_ptr. rewrite Hps. reflexivity. }
  unfold base_body in Hbase. rewrite N1, N2 in Hbase.
  set (s1 := with_heap s (S (heap_calls s)) (heap_live s + 1)) in *.
  assert (forall i k, Z.of_nat i = ARITY (s_type s) ->
            k = (Z.to_nat (ARITY (s_type s))
                 + (if IS_CLOSURE (s_type s) then 1 else 0))%nat ->
            exists ps,
              callee (ARITY (s_type s))
                (Node (s_type s) (Ptr null) (repeat (raw null) k)) s1
              = Node (s_type s) (Ptr (ptr_of (s_u s))) ps /\
              nth_error ps arity = Some (raw (s_context s))) as Hcallee.
  { intros i k Hi ->. rewrite <- Hi. rewrite Hc in *.
    destruct (callee_context i (s_type s) (Z.to_nat (Z.of_nat i) + 1) s1)
      as (ps & E & Hps); [exact Hc | lia|].
    exists ps. split; [exact E|]. unfold arity. rewrite <- Hi, Nat2Z.id.
    exact Hps. }
  destruct ((TYPE_MASK (s_type s) =? TE_FUNCTION0)
            || (TYPE_MASK (s_type s) =? TE_CLOSURE0)) eqn:E0.
  { specialize (A0 eq_refl).
    destruct (new_leaf malloc_ok (s_type s) s) as [[Hok E]|[Hok E]];
      rewrite E in Hbase; [|discriminate Hbase].
    cbv zeta in Hbase. fold s1 in Hbase.
    destruct (Hcallee O _ (eq_sym A0) eq_refl) as (ps & Ec & Hps).
    rewrite A0 in Ec at 1. rewrite Ec in Hbase.
    destruct (s_type (next_token s1) =? TOK_OPEN);
      [destruct (negb (s_type (next_token (next_token s1)) =? TOK_CLOSE))|];
      injection Hbase as <- _; apply Hnode, Hps. }
  destruct ((TYPE_MASK (s_type s) =? TE_FUNCTION1)
            || (TYPE_MASK (s_type s) =? TE_CLOSURE1)) eqn:E1.
  { specialize (A1 eq_refl).
    destruct (new_leaf malloc_ok (s_type s) s) as [[Hok E]|[Hok E]];
      rewrite E in Hbase; [|discriminate Hbase].
    cbv zeta in Hbase. fold s1 in Hbase.
    destruct (Hcallee 1%nat _ (eq_sym A1) eq_refl) as (ps & Ec & Hps).
    rewrite A1 in Ec at 1. rewrite Ec in Hbase.
    destruct (power (next_token s1)) as [[[p|] s2]|]; try discriminate Hbase.
    injection Hbase as <- _. cbn [set_param]. apply Hnode.
    cbn [e_parameters].
    rewrite nth_error_store_other; [exact Hps|]. unfold arity. rewrite A1.
    discriminate. }
  rewrite (A2 eq_refl eq_refl) in Hbase.
  destruct (new_leaf malloc_ok (s_type s) s) as [[Hok E]|[Hok E]];
    rewrite E in Hbase; [|discriminate Hbase].
  cbv zeta in Hbase. fold s1 in Hbase.
  destruct (Hcallee arity _ ltac:(unfold arity; lia) eq_refl) as (ps & Ec & Hps).
  rewrite Ec in Hbase.
  destruct (negb (s_type (next_token s1) =? TOK_OPEN)).
  { injection Hbase as <- _. apply Hnode, Hps. }
  destruct (base_args expr _ _ _ _) as [[[[ret i]|] s3]|] eqn:Eargs;
    try discriminate Hbase.
  change 0 with (Z.of_nat 0) in Eargs.
  apply base_args_keeps in Eargs as (ps' & -> & Hps').
  assert (nth_error ps' arity = Some (raw (s_context s))) as Hctx.
  { rewrite Hps' by (unfold arity; lia). exact Hps. }
  destruct (negb (s_type s3 =? TOK_CLOSE) || _);
    injection Hbase as <- _; apply Hnode, Hctx.
Qed.

(** The context of a closure of two arguments that the calling program
    registers as c. *)
Definition closure_c : te_variable :=
  {| v_name := "c"; v_address := ptr_fun (fn_extern 1);
     v_type := Z.lor TE_CLOSURE2 TE_FLAG_PURE; v_context := ptr_obj 9 |}.

Lemma closure_context_witness :
  let s := next_token (H := small_host) (initial "c(1,2)" [closure_c]) in
  exists n,
    e_type n = s_type s /\
    nth_error (e_parameters n) (Z.to_nat (ARITY (s_type s)))
    = Some (raw (s_context s)) /\
    te_eval (H := small_host) n
    = call (H := small_host) (ptr_of (s_u s))
        (arg_ptr (slot_ptr (e_parameters n) (Z.to_nat (ARITY (s_type s))))
         :: map (fun e => arg_double
                            (nth e (map (slot_eval (H := small_host))
                                      (e_parameters n)) nan))
              (seq 0 (Z.to_nat (ARITY (s_type s))))) /\
    slot_ptr (e_parameters n) (Z.to_nat (ARITY (s_type s))) = s_context s.
Proof.
  cbv zeta. eexists.
  eapply (closure_context small_host plenty
            (power (H := small_host) plenty 20) (expr (H := small_host) plenty 20)
            (list_ (H := small_host) plenty 20)
            (next_token (H := small_host) (initial "c(1,2)" [closure_c])));
    [reflexivity | vm_compute; reflexivity].
Defined.

(* ================================================================== *)
(** * Examples: an unknown identifier, and the powers *)

Section Unknown.
Context {H : Host}.

(** [next_token] at an identifier that nothing is bound to. *)
Lemma next_token_unresolved (s : state) (c : ascii) (r : string) :
  s_next s = String c r -> isalpha c = true ->
  resolve (s_lookup s) (s_next s) (ident_len (s_next s)) = None ->
  next_token s
  = with_type (advance (ident_len (s_next s)) (with_type s TOK_NULL)) TOK_ERROR.
Proof.
  destruct s as [next pos type u context lookup calls live].
  cbn [s_next s_lookup]. intros -> Ha Hr. unfold next_token.
  cbn [next_token_loop with_type s_next String.length].
  unfold scan. rewrite (alpha_not_number c Ha), Ha.
  cbn [advance with_type s_next s_lookup]. rewrite Hr.
  reflexivity.
Qed.

End Unknown.

(** C8, as stated, fails: the error reported for foo(1) is 3, the number
    of characters read when the tokenizer has gone over the identifier, not
    1. *)
Lemma te_compile_foo_position :
  snd (fst (te_compile (H := small_host) plenty "foo(1)" [])) = 3 /\
  snd (fst (te_compile (H := small_host) plenty "foo(1)" [])) <> 1.
Proof. split; [reflexivity | discriminate]. Qed.

(** C8 (amended): when no binding of the caller is named foo (and no
    allocation fails), compiling foo(1) fails, and the error position
    reported is 3. *)
Theorem te_compile_unknown_function (H : Host) (variables : list te_variable) :
  find_lookup variables "foo(1)" 3 = None ->
  exists s, te_compile plenty "foo(1)" variables = (None, 3, s).
Proof.
  intros Hf. unfold te_compile, parse.
  rewrite (next_token_unresolved (initial "foo(1)" variables) "f" "oo(1)");
    [|reflexivity|reflexivity|].
  - vm_compute. eexists. reflexivity.
  - unfold resolve. cbn [initial s_lookup s_next].
    change (ident_len "foo(1)") with 3%nat. rewrite Hf. reflexivity.
Qed.

Lemma te_compile_unknown_function_witness :
  exists s,
    te_compile (H := small_host) plenty "foo(1)" [x_variable 0; sin_variable 1]
    = (None, 3, s).
Proof.
  apply (te_compile_unknown_function small_host [x_variable 0; sin_variable 1]).
  reflexivity.
Defined.






(* ================================================================== *)
(** * The combinatoric functions *)

(** [n!] on unbounded integers. *)
Fixpoint factorial (n : nat) : Z :=
  match n with
  | O => 1
  | S k => Z.of_nat (S k) * factorial k
  end.

(** The loop of [ncr] on unbounded integers: the product formula of the
    binomial coefficient of [m + i] over [i]. *)
Fixpoint ncr_exact (m : Z) (i : nat) : Z :=
  match i with
  | O => 1
  | S k => ncr_exact m k * (m + Z.of_nat (S k)) / Z.of_nat (S k)
  end.

(** Whether every product of the first [i] turns is in the range of
    [unsigned long int]. *)
Fixpoint ncr_fits (m : Z) (i : nat) : bool :=
  match i with
  | O => true
  | S k => ncr_fits m k && (ncr_exact m k * (m + Z.of_nat (S k)) <=? ULONG_MAX)
  end.

(** The number of turns of the loop of [ncr]: the smaller of [r] and
    [n - r]. *)
Definition ncr_turns (un ur : Z) : Z := if ur >? un / 2 then un - ur else ur.

Lemma quotient_test (M r i : Z) :
  0 < r -> (i >? M / r) = negb (i * r <=? M).
Proof.
  intros Hr. rewrite Z.gtb_ltb.
  destruct (Z.leb_spec (i * r) M) as [L|L]; cbn [negb].
  - apply Z.ltb_ge. apply Z.div_le_lower_bound; lia.
  - apply Z.ltb_lt. apply Z.div_lt_upper_bound; lia.
Qed.

Lemma ulong_small (z : Z) : 0 <= z <= ULONG_MAX -> ulong z = z.
Proof. intros Hz. unfold ulong. apply Z.mod_small. lia. Qed.

Lemma factorial_pos (n : nat) : 0 < factorial n.
Proof. induction n as [|n IH]; cbn [factorial]; lia. Qed.

Lemma factorial_le (n k : nat) : factorial n <= factorial (n + k).
Proof.
  induction k as [|k IH].
  - rewrite Nat.add_0_r. lia.
  - rewrite Nat.add_succ_r. cbn [factorial].
    pose proof (factorial_pos (n + k)). nia.
Qed.

(** The loop of [fac] returns early exactly when the factorial is beyond
    [ULONG_MAX]. *)
Lemma fac_loop_spec (k j : nat) :
  factorial j <= ULONG_MAX ->
  fac_loop k (Z.of_nat (S j)) (factorial j)
  = if factorial (j + k) <=? ULONG_MAX then Some (factorial (j + k)) else None.
Proof.
  revert j. induction k as [|k IH]; intros j Hj.
  - rewrite Nat.add_0_r. cbn [fac_loop].
    destruct (Z.leb_spec (factorial j) ULONG_MAX); [reflexivity | lia].
  - cbn [fac_loop]. pose proof (factorial_pos j) as Hp.
    rewrite (quotient_test _ _ _ Hp).
    replace (Z.of_nat (S j) * factorial j) with (factorial (S j)) by reflexivity.
    rewrite Nat.add_succ_r, <- Nat.add_succ_l.
    destruct (Z.leb_spec (factorial (S j)) ULONG_MAX) as [L|L]; cbn [negb].
    + replace (factorial j * Z.of_nat (S j)) with (factorial (S j))
        by (cbn [factorial]; lia).
      pose proof (factorial_pos (S j)).
      rewrite ulong_small by lia.
      replace (Z.of_nat (S j) + 1) with (Z.of_nat (S (S j))) by lia.
      apply IH. exact L.
    + pose proof (factorial_le (S j) k).
      destruct (Z.leb_spec (factorial (S j + k)) ULONG_MAX); [lia | reflexivity].
Qed.

Lemma factorial_fits (n : nat) :
  factorial n <= ULONG_MAX -> 1 <= factorial n < 2 ^ 63.
Proof.
  intros Hn. destruct (Nat.le_gt_cases n 20) as [L|L].
  - do 21 (destruct n as [|n]; [vm_compute; split; [discriminate | reflexivity]|]).
    lia.
  - pose proof (factorial_le 21 (n - 21)) as M.
    replace (21 + (n - 21))%nat with n in M by lia.
    assert (ULONG_MAX < factorial 21) by (vm_compute; reflexivity). lia.
Qed.

Lemma ncr_exact_pos (m : Z) (i : nat) : 0 <= m -> 1 <= ncr_exact m i.
Proof.
  intros Hm. induction i as [|i IH]; cbn [ncr_exact]; [lia|].
  apply Z.div_le_lower_bound; nia.
Qed.

Lemma ncr_fits_le (m : Z) (i k : nat) :
  ncr_fits m (i + k) = true -> ncr_fits m i = true.
Proof.
  induction k as [|k IH].
  - rewrite Nat.add_0_r. trivial.
  - rewrite Nat.add_succ_r. cbn [ncr_fits]. intros F.
    apply andb_true_iff in F. apply IH, F.
Qed.

(** The loop of [ncr] returns early exactly when one of its products is
    beyond [ULONG_MAX]; no product wraps around. *)
Lemma ncr_loop_spec (un ur : Z) (k j : nat) :
  0 <= ur <= un -> un - ur + Z.of_nat (j + k) <= ULONG_MAX ->
  ncr_fits (un - ur) j = true ->
  ncr_loop k un ur (Z.of_nat (S j)) (ncr_exact (un - ur) j)
  = if ncr_fits (un - ur) (j + k) then Some (ncr_exact (un - ur) (j + k))
    else None.
Proof.
  intros Hu. revert j. induction k as [|k IH]; intros j Hb Hj.
  - rewrite Nat.add_0_r, Hj. reflexivity.
  - cbn [ncr_loop].
    assert (ULONG_MAX = 18446744073709551615) as HM by reflexivity.
    rewrite (ulong_small (un - ur)) by lia.
    rewrite (ulong_small (un - ur + Z.of_nat (S j))) by lia.
    rewrite quotient_test by lia.
    rewrite Nat.add_succ_r, <- Nat.add_succ_l in Hb |- *.
    pose proof (ncr_exact_pos (un - ur) j) as Hp.
    destruct (Z.leb_spec (ncr_exact (un - ur) j * (un - ur + Z.of_nat (S j)))
                ULONG_MAX) as [L|L]; cbn [negb].
    + rewrite ulong_small by nia.
      replace (Z.of_nat (S j) + 1) with (Z.of_nat (S (S j))) by lia.
      apply (IH (S j) Hb). cbn [ncr_fits]. rewrite Hj. cbn [andb].
      apply Z.leb_le, L.
    + destruct (ncr_fits (un - ur) (S j + k)) eqn:F; [|reflexivity].
      apply ncr_fits_le in F. cbn [ncr_fits] in F. rewrite Hj in F.
      cbn [andb] in F. apply Z.leb_le in F. lia.
Qed.

Lemma ncr_exact_fits (m : Z) (i : nat) :
  0 <= m <= UINT_MAX -> ncr_fits m i = true -> 1 <= ncr_exact m i < 2 ^ 63.
Proof.
  intros Hm F. split; [apply ncr_exact_pos; lia|].
  assert (UINT_MAX = 4294967295) as HU by reflexivity.
  assert (ULONG_MAX = 18446744073709551615) as HM by reflexivity.
  destruct i as [|i]; [reflexivity|].
  cbn [ncr_fits] in F. apply andb_true_iff in F. destruct F as [_ F].
  apply Z.leb_le in F. cbn [ncr_exact].
  apply Z.div_lt_upper_bound; [lia|].
  destruct i as [|i].
  - cbn [ncr_exact] in *. lia.
  - lia.
Qed.

Lemma ncr_turns_le (un ur : Z) :
  0 <= ur <= un -> 0 <= ncr_turns un ur <= un.
Proof.
  intros Hu. unfold ncr_turns. destruct (ur >? un / 2); lia.
Qed.

(** ** Doubles *)

Lemma SFcompare_antisym (x y : spec_float) :
  SFcompare y x = option_map CompOpp (SFcompare x y).
Proof.
  assert (forall a b, Pos.compare_cont Eq b a = CompOpp (Pos.compare_cont Eq a b))
    as A by (intros a b; symmetry; apply (Pos.compare_cont_antisym a b Eq)).
  destruct x as [[]|[]| |[] m1 e1], y as [[]|[]| |[] m2 e2];
    cbn [SFcompare option_map CompOpp]; try reflexivity;
    rewrite (Z.compare_antisym e1 e2); destruct (e1 ?= e2);
    cbn [CompOpp]; try reflexivity;
    rewrite (A m1 m2); destruct (Pos.compare_cont Eq m1 m2); reflexivity.
Qed.

Lemma leb_not_ltb (x y : float) :
  (x <=? y)%float = true -> (y <? x)%float = false.
Proof.
  rewrite leb_spec, ltb_spec. unfold SFleb, SFltb.
  rewrite (SFcompare_antisym (Prim2SF x) (Prim2SF y)).
  destruct (SFcompare (Prim2SF x) (Prim2SF y)) as [[]|]; cbn; congruence.
Qed.

Lemma ltb_not_negative (c x : float) :
  (0 <=? c)%float = true -> (c <? x)%float = true -> (x <? 0)%float = false.
Proof.
  rewrite leb_spec, !ltb_spec. change (Prim2SF 0) with (S754_zero false).
  unfold SFleb, SFltb.
  destruct (Prim2SF c) as [[]|[]| |[] m1 e1], (Prim2SF x) as [[]|[]| |[] m2 e2];
    cbn [SFcompare]; congruence.
Qed.

Lemma digits2_log2 (m : positive) :
  Zpos (digits2_pos m) = Z.log2 (Zpos m) + 1.
Proof.
  assert (forall p, digits2_pos p = Pos.size p) as S
      by (induction p as [p IH|p IH|]; cbn; congruence).
  rewrite S. destruct m; cbn [Z.log2 Pos.size]; lia.
Qed.

(** The mantissa and the exponent of a double. *)
Lemma finite_bounds (x : float) (s : bool) (m : positive) (e : Z) :
  Prim2SF x = S754_finite s m e ->
  Zpos m < 2 ^ 53 /\ -1074 <= e /\ (-1074 < e -> 2 ^ 52 <= Zpos m).
Proof.
  intros Hx. pose proof (Prim2SF_valid x) as V. rewrite Hx in V.
  cbn [SpecFloat.valid_binary] in V. unfold bounded, canonical_mantissa, fexp in V.
  apply andb_true_iff in V. destruct V as [V _]. apply Z.eqb_eq in V.
  rewrite digits2_log2 in V.
  change (SpecFloat.emin prec emax) with (-1074) in V. change prec with 53 in V.
  assert (0 < Zpos m) as Hm by lia.
  split; [apply Z.log2_lt_pow2; lia|].
  split; [lia|]. intros He. apply Z.log2_le_pow2; lia.
Qed.

Lemma shiftl_mono (a b n : Z) : 0 <= a <= b -> Z.shiftl a n <= Z.shiftl b n.
Proof.
  intros Hab. destruct (Z.le_gt_cases 0 n) as [L|L].
  - rewrite !Z.shiftl_mul_pow2 by lia.
    apply Z.mul_le_mono_nonneg_r; [apply Z.pow_nonneg|]; lia.
  - rewrite !Z.shiftl_div_pow2 by lia.
    apply Z.div_le_mono; [apply Z.pow_pos_nonneg|]; lia.
Qed.

Lemma uint_of_double_nonneg (a : float) : 0 <= uint_of_double a.
Proof.
  unfold uint_of_double. destruct (Prim2SF a) as [| | |[] m e]; try lia.
  apply Z.shiftl_nonneg. lia.
Qed.

(** Discarding the fraction keeps the order of finite doubles. *)
Lemma uint_of_double_le (r n c : float) :
  (r <=? n)%float = true -> (n <=? c)%float = true ->
  Prim2SF c <> S754_infinity false ->
  uint_of_double r <= uint_of_double n.
Proof.
  intros Hrn Hnc Hc. pose proof (uint_of_double_nonneg n) as Hn.
  rewrite leb_spec in Hrn, Hnc. unfold uint_of_double in *. unfold SFleb in *.
  destruct (Prim2SF r) as [| | |[] m1 e1] eqn:Er; try exact Hn.
  destruct (Prim2SF n) as [[]|[]| |[] m2 e2] eqn:En;
    cbn [SFcompare] in Hrn; try discriminate.
  - destruct (Prim2SF c) as [[]|[]| |[] m3 e3]; cbn [SFcompare] in Hnc;
      congruence.
  - destruct (finite_bounds r _ _ _ Er) as (B1 & L1 & _).
    destruct (finite_bounds n _ _ _ En) as (_ & _ & N2).
    destruct (Z.compare_spec e1 e2) as [E|E|E]; try discriminate.
    + subst e2. apply shiftl_mono. split; [lia|].
      change (Pos.compare_cont Eq m1 m2) with (Pos.compare m1 m2) in Hrn.
      destruct (Pos.compare_spec m1 m2); try discriminate; lia.
    + replace e2 with ((e2 - e1) + e1) by lia.
      rewrite <- Z.shiftl_shiftl by lia.
      apply shiftl_mono. rewrite Z.shiftl_mul_pow2 by lia.
      assert (2 ^ 1 <= 2 ^ (e2 - e1)) by (apply Z.pow_le_mono_r; lia).
      specialize (N2 ltac:(lia)).
      change (2 ^ 53) with (2 ^ 52 * 2 ^ 1) in B1. nia.
Qed.

Lemma shr_1_m (mrs : shr_record) :
  0 <= shr_m mrs -> shr_m (shr_1 mrs) = shr_m mrs / 2.
Proof.
  destruct mrs as [[|[p|p|]|p] r s]; cbn [shr_1 shr_m]; intros Hm;
    try reflexivity; try lia.
  - apply (Z.div_unique _ _ _ 1); lia.
  - apply (Z.div_unique _ _ _ 0); lia.
Qed.

Lemma iter_shr_m (k : positive) (mrs : shr_record) :
  0 <= shr_m mrs ->
  shr_m (iter_pos shr_1 k mrs) = shr_m mrs / 2 ^ Zpos k.
Proof.
  revert mrs. induction k as [k IH|k IH|]; intros mrs Hm; cbn [iter_pos].
  - assert (0 < 2 ^ Zpos k) as Hk by (apply Z.pow_pos_nonneg; lia).
    assert (0 <= shr_m (shr_1 mrs))
      by (rewrite shr_1_m by lia; apply Z.div_pos; lia).
    assert (0 <= shr_m (iter_pos shr_1 k (shr_1 mrs)))
      by (rewrite IH by lia; apply Z.div_pos; lia).
    rewrite !IH, shr_1_m by lia. rewrite !Z.div_div by lia.
    replace (Zpos k~1) with (1 + Zpos k + Zpos k) by lia.
    rewrite !Z.pow_add_r by lia. f_equal. change (2 ^ 1) with 2. lia.
  - assert (0 < 2 ^ Zpos k) as Hk by (apply Z.pow_pos_nonneg; lia).
    assert (0 <= shr_m (iter_pos shr_1 k mrs))
      by (rewrite IH by lia; apply Z.div_pos; lia).
    rewrite !IH by lia. rewrite Z.div_div by lia.
    replace (Zpos k~0) with (Zpos k + Zpos k) by lia.
    rewrite Z.pow_add_r by lia. reflexivity.
  - apply shr_1_m, Hm.
Qed.

(** Rounding to the precision of a double leaves a positive mantissa
    positive. *)
Lemma shr_fexp_pos (m e : Z) (l : location) :
  0 < m -> -1074 <= e ->
  0 < shr_m (fst (shr_fexp prec emax m e l)) /\
  -1074 <= snd (shr_fexp prec emax m e l).
Proof.
  intros Hm He. unfold shr_fexp, shr.
  assert (shr_m (shr_record_of_loc m l) = m) as Hl by (destruct l as [|[]]; reflexivity).
  destruct (fexp prec emax (Zdigits2 m + e) - e) as [|k|k] eqn:N;
    cbn [fst snd]; rewrite ?Hl; try (split; lia).
  rewrite iter_shr_m, Hl by lia. split; [|lia].
  destruct m as [|p|p]; try lia. cbn [Zdigits2] in N.
  rewrite digits2_log2 in N. unfold fexp in N.
  change (SpecFloat.emin prec emax) with (-1074) in N. change prec with 53 in N.
  pose proof (Z.log2_nonneg (Zpos p)).
  apply Z.div_str_pos. split; [lia|]. apply Z.log2_le_pow2; lia.
Qed.

Lemma round_nearest_even_le (m : Z) (l : location) :
  m <= round_nearest_even m l.
Proof.
  destruct l as [|[]]; cbn [round_nearest_even]; try lia.
  destruct (Z.even m); lia.
Qed.

Lemma binary_normalize_pos (p : positive) :
  SFltb (S754_zero false) (binary_normalize prec emax (Zpos p) 0 false) = true.
Proof.
  cbn [binary_normalize]. unfold binary_round.
  destruct (shl_align p 0 (fexp prec emax (Zpos (digits2_pos p) + 0)))
    as [mz ez] eqn:A.
  assert (-1074 <= ez) as Hz.
  { unfold shl_align in A.
    assert (forall x, -1074 <= fexp prec emax x) as F
      by (intros x; unfold fexp; change (SpecFloat.emin prec emax) with (-1074);
          lia).
    destruct (fexp prec emax (Zpos (digits2_pos p) + 0) - 0);
      injection A as <- <-; first [apply F | lia]. }
  unfold binary_round_aux.
  pose proof (shr_fexp_pos (Zpos mz) ez loc_Exact ltac:(lia) Hz) as S1.
  destruct (shr_fexp prec emax (Zpos mz) ez loc_Exact) as [mrs' e'].
  cbn [fst snd] in S1.
  pose proof (round_nearest_even_le (shr_m mrs') (loc_of_shr_record mrs')) as R.
  pose proof (shr_fexp_pos _ e' loc_Exact
                (Z.lt_le_trans _ _ _ (proj1 S1) R) (proj2 S1)) as S2.
  destruct (shr_fexp prec emax _ e' loc_Exact) as [mrs'' e''].
  cbn [fst snd] in S2.
  destruct (shr_m mrs'') as [|q|q]; try lia.
  destruct (e'' <=? emax - prec); reflexivity.
Qed.

(** The conversion of a positive integer below 2^63 is a positive
    double. *)
Lemma double_of_ulong_pos (z : Z) :
  1 <= z < 2 ^ 63 -> (0 <? double_of_ulong z)%float = true.
Proof.
  intros Hz.
  assert (Prim2SF (double_of_ulong z) = binary_normalize prec emax z 0 false)
    as E.
  { pose proof (of_uint63_spec (Uint63.of_Z z)) as S.
    rewrite Uint63.of_Z_spec, Z.mod_small in S
      by (change Uint63.wB with (2 ^ 63); lia).
    transitivity (Prim2SF (of_uint63 (Uint63.of_Z z))); [|exact S].
    f_equal. unfold double_of_ulong. rewrite <- S. apply SF2Prim_Prim2SF. }
  rewrite ltb_spec, E. change (Prim2SF 0) with (S754_zero false).
  destruct z as [|p|p]; try lia. apply binary_normalize_pos.
Qed.

Lemma mul_nan (x : float) : (nan * x)%float = nan.
Proof.
  apply Prim2SF_inj. rewrite mul_spec. change (Prim2SF nan) with S754_nan.
  destruct (Prim2SF x); reflexivity.
Qed.

Lemma mul_infinity (x y : float) :
  x = infinity \/ y = infinity ->
  (0 <? x)%float = true -> (0 <? y)%float = true ->
  (x * y)%float = infinity.
Proof.
  intros Hxy Hx Hy. apply Prim2SF_inj. rewrite mul_spec.
  rewrite ltb_spec in Hx, Hy. change (Prim2SF 0) with (S754_zero false) in Hx, Hy.
  change (Prim2SF infinity) with (S754_infinity false).
  assert (Prim2SF x = S754_infinity false \/ Prim2SF y = S754_infinity false)
    as Hi by (destruct Hxy as [->| ->]; [left | right]; reflexivity).
  unfold SFltb in Hx, Hy.
  destruct (Prim2SF x) as [[]|[]| |[] m1 e1], (Prim2SF y) as [[]|[]| |[] m2 e2];
    cbn [SFcompare] in Hx, Hy; try discriminate;
    try reflexivity; destruct Hi; discriminate.
Qed.

Lemma SFcompare_none (x y : spec_float) :
  SFcompare x y = None -> x = S754_nan \/ y = S754_nan.
Proof.
  destruct x as [[]|[]| |[] m1 e1], y as [[]|[]| |[] m2 e2];
    cbn [SFcompare]; intros E; try discriminate; auto.
Qed.

Lemma leb_not_nan (x y : float) :
  (x <=? y)%float = true -> Prim2SF x <> S754_nan /\ Prim2SF y <> S754_nan.
Proof.
  rewrite leb_spec. unfold SFleb.
  destruct (Prim2SF x) as [[]|[]| |[] m1 e1], (Prim2SF y) as [[]|[]| |[] m2 e2];
    cbn [SFcompare]; intros E; try discriminate; split; discriminate.
Qed.

(** Of two doubles neither of which is NaN, one is at most the other. *)
Lemma ltb_false_leb (x y c d : float) :
  (c <=? x)%float = true -> (d <=? y)%float = true ->
  (y <? x)%float = false -> (x <=? y)%float = true.
Proof.
  intros Hx Hy. apply leb_not_nan in Hx, Hy.
  rewrite leb_spec, ltb_spec. unfold SFleb, SFltb.
  rewrite (SFcompare_antisym (Prim2SF y) (Prim2SF x)).
  destruct (SFcompare (Prim2SF y) (Prim2SF x)) as [[]|] eqn:E;
    cbn [option_map CompOpp]; try congruence.
  apply SFcompare_none in E. tauto.
Qed.

Ltac order_cases :=
  repeat match goal with
         | H : context [Z.compare ?a ?b] |- _ => destruct (Z.compare_spec a b)
         | |- context [Z.compare ?a ?b] => destruct (Z.compare_spec a b)
         | H : context [Pos.compare ?a ?b] |- _ => destruct (Pos.compare_spec a b)
         | |- context [Pos.compare ?a ?b] => destruct (Pos.compare_spec a b)
         end.

Lemma SFleb_trans (x y z : spec_float) :
  SFleb x y = true -> SFleb y z = true -> SFleb x z = true.
Proof.
  unfold SFleb.
  destruct x as [[]|[]| |[] m1 e1], y as [[]|[]| |[] m2 e2],
      z as [[]|[]| |[] m3 e3];
    cbn [SFcompare]; try congruence;
    change (Pos.compare_cont Eq) with Pos.compare;
    intros A B; order_cases; cbn [CompOpp] in *;
    try reflexivity; try discriminate; subst; lia.
Qed.

Lemma leb_trans (x y z : float) :
  (x <=? y)%float = true -> (y <=? z)%float = true -> (x <=? z)%float = true.
Proof. rewrite !leb_spec. apply SFleb_trans. Qed.

Lemma top_facts :
  uint_of_double (double_of_ulong UINT_MAX) = UINT_MAX /\
  Prim2SF (double_of_ulong UINT_MAX) <> S754_infinity false /\
  (0 <=? double_of_ulong UINT_MAX)%float = true /\
  (double_of_ulong UINT_MAX <=? double_of_ulong UINT_MAX)%float = true.
Proof.
  split; [vm_compute; reflexivity|].
  split; [vm_compute; discriminate|].
  split; vm_compute; reflexivity.
Qed.

(** [(unsigned int) a] is in the range of [unsigned int] for the doubles
    that [fac] and [ncr] convert. *)
Lemma uint_of_double_range (a : float) :
  (a <=? double_of_ulong UINT_MAX)%float = true ->
  0 <= uint_of_double a <= UINT_MAX.
Proof.
  intros Ha. destruct top_facts as (T1 & T2 & _ & T4).
  split; [apply uint_of_double_nonneg|].
  pose proof (uint_of_double_le a (double_of_ulong UINT_MAX)
                (double_of_ulong UINT_MAX) Ha T4 T2) as L. rewrite T1 in L. exact L.
Qed.

(** [fac] on its domain. *)
Lemma fac_in_range (a : float) :
  (0 <=? a)%float = true -> (a <=? double_of_ulong UINT_MAX)%float = true ->
  fac a = if factorial (Z.to_nat (uint_of_double a)) <=? ULONG_MAX
          then double_of_ulong (factorial (Z.to_nat (uint_of_double a)))
          else infinity.
Proof.
  intros H0 H1. unfold fac.
  rewrite (leb_not_ltb _ _ H0), (leb_not_ltb _ _ H1).
  cbv zeta.
  change (fac_loop (Z.to_nat (uint_of_double a)) 1 1)
    with (fac_loop (Z.to_nat (uint_of_double a)) (Z.of_nat 1) (factorial 0)).
  rewrite (fac_loop_spec (Z.to_nat (uint_of_double a)) 0)
    by (vm_compute; discriminate).
  cbn [Nat.add]. destruct (_ <=? _); reflexivity.
Qed.

Lemma fac_pos (a : float) :
  (0 <=? a)%float = true -> (0 <? fac a)%float = true.
Proof.
  intros H0. destruct (double_of_ulong UINT_MAX <? a)%float eqn:T.
  - unfold fac. rewrite (leb_not_ltb _ _ H0), T. reflexivity.
  - destruct top_facts as (_ & _ & _ & T4).
    rewrite (fac_in_range a H0
               (ltb_false_leb a (double_of_ulong UINT_MAX) 0
                  (double_of_ulong UINT_MAX) H0 T4 T)).
    destruct (Z.leb_spec (factorial (Z.to_nat (uint_of_double a))) ULONG_MAX)
      as [L|L]; [|reflexivity].
    apply double_of_ulong_pos, factorial_fits, L.
Qed.

(** [ncr] on its domain. *)
Lemma ncr_in_range (n r : float) :
  (0 <=? r)%float = true -> (r <=? n)%float = true ->
  (n <=? double_of_ulong UINT_MAX)%float = true ->
  let un := uint_of_double n in
  let turns := ncr_turns un (uint_of_double r) in
  0 <= turns <= un /\ un <= UINT_MAX /\
  ncr n r = if ncr_fits (un - turns) (Z.to_nat turns)
            then double_of_ulong (ncr_exact (un - turns) (Z.to_nat turns))
            else infinity.
Proof.
  intros H0 H1 H2 un turns. destruct top_facts as (_ & T2 & _ & T4).
  pose proof (uint_of_double_range n H2) as Rn.
  pose proof (uint_of_double_nonneg r) as Rr.
  pose proof (uint_of_double_le r n (double_of_ulong UINT_MAX) H1 H2 T2) as Rrn.
  pose proof (ncr_turns_le un (uint_of_double r) (conj Rr Rrn)) as Rt.
  fold un in Rn, Rrn. fold turns in Rt.
  split; [exact Rt|]. split; [lia|].
  assert (UINT_MAX = 4294967295) as HU by reflexivity.
  assert (ULONG_MAX = 18446744073709551615) as HM by reflexivity.
  unfold ncr.
  rewrite (leb_not_ltb _ _ (leb_trans _ _ _ H0 H1)), (leb_not_ltb _ _ H0),
    (leb_not_ltb _ _ H1), (leb_not_ltb _ _ H2).
  pose proof (leb_trans _ _ _ H1 H2) as H3.
  rewrite (leb_not_ltb _ _ H3). cbn [orb]. cbv zeta.
  assert ((if uint_of_double r >? uint_of_double n / 2
           then ulong (uint_of_double n - uint_of_double r)
           else uint_of_double r) = turns) as ->.
  { unfold turns, ncr_turns, un.
    destruct (uint_of_double r >? uint_of_double n / 2); [|reflexivity].
    apply ulong_small. lia. }
  change 1 with (Z.of_nat 1) at 1.
  change 1 with (ncr_exact (uint_of_double n - turns) 0).
  fold un.
  rewrite (ncr_loop_spec un turns (Z.to_nat turns) 0) by first [lia | reflexivity].
  cbn [Nat.add]. destruct (ncr_fits _ _); reflexivity.
Qed.

Lemma ncr_pos (n r : float) :
  (0 <=? r)%float = true -> (r <=? n)%float = true ->
  (0 <? ncr n r)%float = true.
Proof.
  intros H0 H1. destruct top_facts as (_ & _ & _ & T4).
  destruct (double_of_ulong UINT_MAX <? n)%float eqn:T.
  - unfold ncr.
    rewrite (leb_not_ltb _ _ (leb_trans _ _ _ H0 H1)), (leb_not_ltb _ _ H0),
      (leb_not_ltb _ _ H1), T. reflexivity.
  - pose proof (ltb_false_leb n (double_of_ulong UINT_MAX) 0
                  (double_of_ulong UINT_MAX) (leb_trans _ _ _ H0 H1) T4 T) as H2.
    destruct (ncr_in_range n r H0 H1 H2) as (Rt & Ru & ->).
    destruct (ncr_fits _ _) eqn:F; [|reflexivity].
    apply double_of_ulong_pos, ncr_exact_fits; [lia | exact F].
Qed.

(** C7: the saturation of [fac], [ncr] and [npr].  Outside the domain (a
    negative argument, or n below r) the result is NaN.  On the domain, an
    argument above [UINT_MAX] gives positive infinity, and so does a product
    of the loop above [ULONG_MAX], none of which wraps around: [fac] is the
    factorial of the argument without its fraction when that is at most
    [ULONG_MAX], [ncr] the result of its loop on unbounded integers when
    every product is; [npr] is infinite as soon as one of its two factors
    is. *)
Theorem fac_ncr_npr_saturate :
  let top := double_of_ulong UINT_MAX in
  (forall a, (a <? 0)%float = true -> fac a = nan) /\
  (forall n r, ((n <? 0) || (r <? 0) || (n <? r))%float = true ->
     ncr n r = nan /\ npr n r = nan) /\
  (forall a, (top <? a)%float = true -> fac a = infinity) /\
  (forall n r, (0 <=? r)%float = true -> (r <=? n)%float = true ->
     ((top <? n) || (top <? r))%float = true ->
     ncr n r = infinity /\ npr n r = infinity) /\
  (forall a, (0 <=? a)%float = true -> (a <=? top)%float = true ->
     let ua := Z.to_nat (uint_of_double a) in
     fac a = if factorial ua <=? ULONG_MAX then double_of_ulong (factorial ua)
             else infinity) /\
  (forall n r, (0 <=? r)%float = true -> (r <=? n)%float = true ->
     (n <=? top)%float = true ->
     let un := uint_of_double n in
     let turns := ncr_turns un (uint_of_double r) in
     ncr n r = if ncr_fits (un - turns) (Z.to_nat turns)
               then double_of_ulong (ncr_exact (un - turns) (Z.to_nat turns))
               else infinity) /\
  (forall n r, (0 <=? r)%float = true -> (r <=? n)%float = true ->
     ncr n r = infinity \/ fac r = infinity -> npr n r = infinity).
Proof.
  cbv zeta. destruct top_facts as (_ & _ & T3 & _).
  split; [intros a Ha; unfold fac; rewrite Ha; reflexivity|].
  split.
  { intros n r Hd. assert (ncr n r = nan) as E by (unfold ncr; rewrite Hd; reflexivity).
    split; [exact E|]. unfold npr. rewrite E. apply mul_nan. }
  split.
  { intros a Ha. unfold fac. rewrite (ltb_not_negative (double_of_ulong UINT_MAX) a T3 Ha), Ha.
    reflexivity. }
  split.
  { intros n r H0 H1 Ht.
    assert (ncr n r = infinity) as E.
    { unfold ncr.
      rewrite (leb_not_ltb _ _ (leb_trans _ _ _ H0 H1)), (leb_not_ltb _ _ H0),
        (leb_not_ltb _ _ H1), Ht. reflexivity. }
    split; [exact E|]. unfold npr. apply mul_infinity; [left; exact E| |].
    - rewrite E. reflexivity.
    - apply fac_pos, H0. }
  split; [intros a H0 H1; apply fac_in_range; assumption|].
  split; [intros n r H0 H1 H2; apply ncr_in_range; assumption|].
  intros n r H0 H1 Hi. unfold npr.
  apply mul_infinity; [exact Hi | apply ncr_pos; assumption | apply fac_pos, H0].
Qed.

Lemma fac_ncr_npr_saturate_witness :
  fac (-1) = nan /\ (ncr 2 5 = nan /\ npr 2 5 = nan) /\
  fac 8589934592 = infinity /\
  (ncr 8589934592 1 = infinity /\ npr 8589934592 1 = infinity) /\
  fac 5 = 120%float /\ fac 2.5 = 2%float /\ fac 21 = infinity /\
  ncr 5 2 = 10%float /\ ncr 64 32 = infinity /\
  npr 25 22 = infinity.
Proof.
  destruct fac_ncr_npr_saturate as (A & B & C & D & E & F & G).
  split; [apply A; reflexivity|].
  split; [apply B; reflexivity|].
  split; [apply C; reflexivity|].
  split; [apply D; reflexivity|].
  split; [exact (E 5%float eq_refl eq_refl)|].
  split; [exact (E 2.5%float eq_refl eq_refl)|].
  split; [exact (E 21%float eq_refl eq_refl)|].
  split; [exact (F 5%float 2%float eq_refl eq_refl eq_refl)|].
  split; [exact (F 64%float 32%float eq_refl eq_refl eq_refl)|].
  apply G; [reflexivity | reflexivity | right; reflexivity].
Defined.
